(** * SQLocal client: the message-correlation layer of [src/client.ts]

    A shallow embedding of the [SQLocal] class: the envelopes exchanged with
    the worker, the registry of pending requests, the inbound message
    handler, the dispatch function [createQuery] and the operations layered
    on it.  JavaScript objects that the class mutates ([Map]s, the worker,
    the promises it creates) are threaded explicitly through a [World]. *)

From Stdlib Require Import Ascii.
From stdpp Require Import gmap strings list fin_maps relations.

(** ** JavaScript values

    Payloads typed [unknown] in the source.  The client never computes on
    them: it forwards them, stores them, or throws them. *)

#[warnings="-register-all"]
Inductive JsValue : Type :=
| JsUndefined
| JsNull
| JsBoolean (b : bool)
| JsNumber (n : Z)
| JsString (s : string)
| JsArray (items : list JsValue)
| JsError (message : string)
| JsTypeError (message : string).

(** How a call ends: it returns, or it throws a value. *)
Inductive Completion (A : Type) : Type :=
| Normal (value : A)
| Throw (error : JsValue).
Arguments Normal {A} value.
Arguments Throw {A} error.

(** ** Message envelopes (declared in [types.ts]) *)

Definition QueryKey := string.
Definition Bytes := list Byte.byte.

Inductive Sqlite3Method := get | all | run | values.

Record Statement := { statement_sql : string; statement_params : list JsValue }.

Record RawResultData := { rows : list JsValue; columns : list string }.

Definition DatabaseInfo := JsValue.

Inductive FunctionType := callback | scalar.

Module MessageType.
Inductive t := config | query | batch | function | import | getinfo | destroy.
End MessageType.

#[global] Instance MessageType_eq_dec : EqDecision MessageType.t.
Proof. solve_decision. Defined.

(** A request as the operations build it, before [createQuery] spreads it
    into the posted object together with the key. *)
Inductive Body :=
| ConfigBody (key value : string)
| QueryBody (sql : string) (params : list JsValue) (method : Sqlite3Method)
| BatchBody (statements : list Statement)
| FunctionBody (functionName : string) (functionType : FunctionType)
| ImportBody (database : Bytes)
| GetInfoBody
| DestroyBody.

Definition type_of (b : Body) : MessageType.t :=
  match b with
  | ConfigBody _ _ => MessageType.config
  | QueryBody _ _ _ => MessageType.query
  | BatchBody _ => MessageType.batch
  | FunctionBody _ _ => MessageType.function
  | ImportBody _ => MessageType.import
  | GetInfoBody => MessageType.getinfo
  | DestroyBody => MessageType.destroy
  end.

(** The object handed to [worker.postMessage]: the fields of the request
    and, when the object has one, its [queryKey] property. *)
Record InputMessage := { body : Body; queryKey : option QueryKey }.

(** Messages coming back from the worker.  The key of a reply is optional:
    the handler itself tests it for truthiness. *)
Inductive OutputMessage :=
| SuccessMessage (queryKey : option QueryKey)
| DataMessage (queryKey : option QueryKey) (data : list RawResultData)
| ErrorMessage (queryKey : option QueryKey) (error : JsValue)
| InfoMessage (queryKey : option QueryKey) (info : DatabaseInfo)
| CallbackMessage (name : string) (args : option (list JsValue)).

Inductive OutputType :=
| type_success | type_data | type_error | type_info | type_callback.

#[global] Instance OutputType_eq_dec : EqDecision OutputType.
Proof. solve_decision. Defined.

Definition output_type (m : OutputMessage) : OutputType :=
  match m with
  | SuccessMessage _ => type_success
  | DataMessage _ _ => type_data
  | ErrorMessage _ _ => type_error
  | InfoMessage _ _ => type_info
  | CallbackMessage _ _ => type_callback
  end.

Definition output_queryKey (m : OutputMessage) : option QueryKey :=
  match m with
  | SuccessMessage k | DataMessage k _ | ErrorMessage k _ | InfoMessage k _ => k
  | CallbackMessage _ _ => None
  end.

(** [message.queryKey && ...]: a missing key and the empty string are falsy. *)
Definition truthy (k : option QueryKey) : option QueryKey :=
  match k with
  | Some s => if decide (s = "") then None else Some s
  | None => None
  end.

(** ** Promises

    [createQuery] returns [new Promise(...)] and keeps the two functions the
    executor receives.  A promise is a cell of the store; the two functions
    are closures over that cell, and settling a settled promise does nothing. *)

Inductive Settlement :=
| Fulfilled (message : OutputMessage)
| Rejected (error : JsValue).

Definition PromiseId := nat.

Inductive Resolve := resolve_of (p : PromiseId).
Inductive Reject := reject_of (p : PromiseId).

Definition settle (p : PromiseId) (s : Settlement)
    (ps : list (option Settlement)) : list (option Settlement) :=
  match ps !! p with
  | Some None => <[p := Some s]> ps
  | _ => ps
  end.

Definition call_resolve (f : Resolve) (message : OutputMessage) :=
  match f with resolve_of p => settle p (Fulfilled message) end.

Definition call_reject (f : Reject) (error : JsValue) :=
  match f with reject_of p => settle p (Rejected error) end.

(** [await promise] once the promise is settled. *)
Definition await (s : Settlement) : Completion OutputMessage :=
  match s with
  | Fulfilled message => Normal message
  | Rejected error => Throw error
  end.

(** ** The worker, as the client sees it *)

Record Worker := {
  posted : list (InputMessage * list Bytes);  (* postMessage(message, transfer) *)
  listening : bool;                           (* the 'message' listener *)
  terminated : bool;
}.

(** [worker.postMessage] for a message made of the values modelled here and a
    transfer list of [ArrayBuffer]s, which the worker accepts. *)
Definition postMessage (m : InputMessage) (transfer : list Bytes) (wk : Worker) : Worker :=
  {| posted := posted wk ++ [(m, transfer)];
     listening := listening wk;
     terminated := terminated wk |}.

Definition removeEventListener (wk : Worker) : Worker :=
  {| posted := posted wk; listening := false; terminated := terminated wk |}.

Definition terminate (wk : Worker) : Worker :=
  {| posted := posted wk; listening := listening wk; terminated := true |}.

(** ** JavaScript arrays

    A slot of an array holds an element or is a hole ([new Array(n)] makes
    [n] holes).  Writing at an index past the end extends the array. *)

Definition new_Array {A} (n : nat) : list (option A) := replicate n None.

Definition fill {A} (x : A) (a : list (option A)) : list (option A) :=
  replicate (length a) (Some x).

Definition array_set {A} (i : nat) (x : A) (a : list (option A)) : list (option A) :=
  if decide (i < length a) then <[i := Some x]> a
  else a ++ replicate (i - length a) None ++ [Some x].

Fixpoint forEach_from {A T} (f : A → nat → T → T) (i : nat) (l : list A) (s : T) : T :=
  match l with
  | [] => s
  | x :: l => forEach_from f (S i) l (f x i s)
  end.

(** [l.forEach((x, i) => ...)] on a dense array, the callback acting on [s]. *)
Definition forEach {A T} (f : A → nat → T → T) (l : list A) (s : T) : T :=
  forEach_from f 0 l s.

(** ** The part of each operation that follows its [await]

    An [async] method runs synchronously up to [await this.createQuery(...)]
    and continues from there when the promise is settled.  The definitions
    named [_then] are those continuations; the ones that only decode the
    reply are pure. *)

Definition emptyResult : RawResultData := {| rows := []; columns := [] |}.

Definition undefinedRowsError : JsValue :=
  JsTypeError "Cannot read properties of undefined (reading 'rows')".

(** [exec], lines 146-156. *)
Definition exec_then (s : Settlement) : Completion RawResultData :=
  match await s with
  | Throw e => Throw e
  | Normal message =>
      match message with
      | DataMessage _ d =>
          match d !! 0 with
          | Some first => Normal {| rows := rows first; columns := columns first |}
          | None => Throw undefinedRowsError
          end
      | _ => Normal emptyResult
      end
  end.

(** [execBatch], lines 166-177. *)
Definition execBatch_then (statements : list Statement) (s : Settlement)
    : Completion (list (option RawResultData)) :=
  match await s with
  | Throw e => Throw e
  | Normal message =>
      let data := fill emptyResult (new_Array (length statements)) in
      match message with
      | DataMessage _ d =>
          Normal (forEach (λ result resultIndex, array_set resultIndex result) d data)
      | _ => Normal data
      end
  end.

(** [getDatabaseInfo], lines 248-252. *)
Definition getDatabaseInfo_then (s : Settlement) : Completion DatabaseInfo :=
  match await s with
  | Throw e => Throw e
  | Normal (InfoMessage _ i) => Normal i
  | Normal _ => Throw (JsError "The database failed to return valid information.")
  end.

(** [overwriteDatabaseFile], after line 289. *)
Definition overwriteDatabaseFile_then (s : Settlement) : Completion unit :=
  match await s with
  | Throw e => Throw e
  | Normal _ => Normal ()
  end.

(** What the handler does to the promise store when it calls the stored pair. *)
Definition settled_by (message : OutputMessage) (resolve : Resolve) (reject : Reject)
    : list (option Settlement) → list (option Settlement) :=
  match message with
  | ErrorMessage _ e => call_reject reject e
  | _ => call_resolve resolve message
  end.

(** What the promise of a reply is settled with. *)
Definition settlement_of (message : OutputMessage) : Settlement :=
  match message with
  | ErrorMessage _ e => Rejected e
  | _ => Fulfilled message
  end.

(** The result sets a reply carries: those of a data reply, none otherwise. *)
Definition reply_results (message : OutputMessage) : list RawResultData :=
  match message with
  | DataMessage _ d => d
  | _ => []
  end.

(** The transfer list of [postMessage]: the database of an [import]. *)
Definition transfer_of (b : Body) : list Bytes :=
  match b with
  | ImportBody database => [database]
  | _ => []
  end.

(** What [overwriteDatabaseFile] is given, seen from line 286 on: a [File] or
    [Blob] whose [await databaseFile.arrayBuffer()] has resolved to
    [contents] (a rejection of that promise ends the call before it reaches
    [createQuery]), or an [ArrayBuffer] used as it is.  A typed-array view is
    not among these inputs: [postMessage] refuses one in its transfer list. *)
Inductive DatabaseFile :=
| BlobFile (contents : Bytes)
| BufferFile (buffer : Bytes).

Section Client.

(** The state of the application that owns the callback handlers.  A handler
    acts on it and either returns a value or throws.  Handlers that call the
    client's own methods while they run are not among the handlers modelled
    here; what is stated of callback messages is stated of the router's own
    branch. *)
Context {U : Type}.

Definition CallbackUserFunction := list JsValue → U → Completion JsValue * U.
Definition ScalarUserFunction := list JsValue → JsValue.

(** ** The client object and the world around it *)

Record SQLocal := {
  databasePath : string;
  worker : Worker;
  proxy : gmap string ScalarUserFunction;
  isWorkerDestroyed : bool;
  userCallbacks : gmap string CallbackUserFunction;
  queriesInProgress : gmap string (Resolve * Reject);
}.

Record World := {
  client : SQLocal;
  promises : list (option Settlement);
  entropy : nat → QueryKey;     (* what the next calls of nanoid() return *)
  app : U;
}.

Definition with_worker (f : Worker → Worker) (w : World) : World :=
  {| client := {| databasePath := databasePath (client w);
                  worker := f (worker (client w));
                  proxy := proxy (client w);
                  isWorkerDestroyed := isWorkerDestroyed (client w);
                  userCallbacks := userCallbacks (client w);
                  queriesInProgress := queriesInProgress (client w) |};
     promises := promises w; entropy := entropy w; app := app w |}.

Definition with_proxy (f : gmap string ScalarUserFunction → gmap string ScalarUserFunction)
    (w : World) : World :=
  {| client := {| databasePath := databasePath (client w);
                  worker := worker (client w);
                  proxy := f (proxy (client w));
                  isWorkerDestroyed := isWorkerDestroyed (client w);
                  userCallbacks := userCallbacks (client w);
                  queriesInProgress := queriesInProgress (client w) |};
     promises := promises w; entropy := entropy w; app := app w |}.

Definition with_isWorkerDestroyed (b : bool) (w : World) : World :=
  {| client := {| databasePath := databasePath (client w);
                  worker := worker (client w);
                  proxy := proxy (client w);
                  isWorkerDestroyed := b;
                  userCallbacks := userCallbacks (client w);
                  queriesInProgress := queriesInProgress (client w) |};
     promises := promises w; entropy := entropy w; app := app w |}.

Definition with_userCallbacks
    (f : gmap string CallbackUserFunction → gmap string CallbackUserFunction)
    (w : World) : World :=
  {| client := {| databasePath := databasePath (client w);
                  worker := worker (client w);
                  proxy := proxy (client w);
                  isWorkerDestroyed := isWorkerDestroyed (client w);
                  userCallbacks := f (userCallbacks (client w));
                  queriesInProgress := queriesInProgress (client w) |};
     promises := promises w; entropy := entropy w; app := app w |}.

Definition with_queriesInProgress
    (f : gmap string (Resolve * Reject) → gmap string (Resolve * Reject))
    (w : World) : World :=
  {| client := {| databasePath := databasePath (client w);
                  worker := worker (client w);
                  proxy := proxy (client w);
                  isWorkerDestroyed := isWorkerDestroyed (client w);
                  userCallbacks := userCallbacks (client w);
                  queriesInProgress := f (queriesInProgress (client w)) |};
     promises := promises w; entropy := entropy w; app := app w |}.

Definition with_promises (f : list (option Settlement) → list (option Settlement))
    (w : World) : World :=
  {| client := client w; promises := f (promises w);
     entropy := entropy w; app := app w |}.

Definition with_app (u : U) (w : World) : World :=
  {| client := client w; promises := promises w; entropy := entropy w; app := u |}.

(** [nanoid()]: the next key of the supply. *)
Definition nanoid (w : World) : QueryKey * World :=
  (entropy w 0,
   {| client := client w; promises := promises w;
      entropy := λ n, entropy w (S n); app := app w |}).

(** ** [constructor] (lines 39-52) *)

Definition constructor (path : string) (keys : nat → QueryKey) (u : U) : World :=
  {| client := {| databasePath := path;
                  worker := {| posted := [({| body := ConfigBody "databasePath" path;
                                              queryKey := None |}, [])];
                               listening := true;
                               terminated := false |};
                  proxy := ∅;
                  isWorkerDestroyed := false;
                  userCallbacks := ∅;
                  queriesInProgress := ∅ |};
     promises := []; entropy := keys; app := u |}.

(** ** [processMessageEvent] (lines 54-86) *)

Definition processMessageEvent (message : OutputMessage) (w : World)
    : Completion unit * World :=
  let queries := queriesInProgress (client w) in
  match message with
  | CallbackMessage name args =>
      match userCallbacks (client w) !! name with
      | Some userCallback =>
          let '(r, u) := userCallback (default [] args) (app w) in
          (match r with Normal _ => Normal () | Throw e => Throw e end,
           with_app u w)
      | None => (Normal (), w)
      end
  | _ =>
      match truthy (output_queryKey message) ≫= (λ k, pair k <$> queries !! k) with
      | Some (k, (resolve, reject)) =>
          let settled :=
            match message with
            | ErrorMessage _ e => call_reject reject e
            | _ => call_resolve resolve message
            end in
          (Normal (),
           with_queriesInProgress (delete k) (with_promises settled w))
      | None =>
          match message with
          | ErrorMessage _ e => (Throw e, w)
          | _ => (Normal (), w)
          end
      end
  end.

(** ** [createQuery] (lines 88-132) *)

Definition destroyedError : JsValue :=
  JsError "This SQLocal client has been destroyed. You will need to initialize a new client in order to make further queries.".

Definition createQuery (message : Body) (w : World) : Completion PromiseId * World :=
  if isWorkerDestroyed (client w) then (Throw destroyedError, w)
  else
    let '(key, w) := nanoid w in
    let stamped := {| body := message; queryKey := Some key |} in
    let w :=
      match message with
      | ImportBody database => with_worker (postMessage stamped [database]) w
      | _ => with_worker (postMessage stamped []) w
      end in
    let p := length (promises w) in
    let w := with_promises (λ ps, ps ++ [None]) w in
    (Normal p,
     with_queriesInProgress (<[key := (resolve_of p, reject_of p)]>) w).

(** ** The operations, up to their [await] *)

Definition exec (sql : string) (params : list JsValue) (method : Sqlite3Method)
    (w : World) : Completion PromiseId * World :=
  createQuery (QueryBody sql params method) w.

Definition execBatch (statements : list Statement) (w : World)
    : Completion PromiseId * World :=
  createQuery (BatchBody statements) w.

Definition createCallbackFunction (funcName : string) (func : CallbackUserFunction)
    (w : World) : Completion PromiseId * World :=
  createQuery (FunctionBody funcName callback) w.

Definition createScalarFunction (funcName : string) (func : ScalarUserFunction)
    (w : World) : Completion PromiseId * World :=
  createQuery (FunctionBody funcName scalar) w.

Definition getDatabaseInfo (w : World) : Completion PromiseId * World :=
  createQuery GetInfoBody w.

Definition overwriteDatabaseFile (databaseFile : DatabaseFile) (w : World)
    : Completion PromiseId * World :=
  let database :=
    match databaseFile with
    | BlobFile contents => contents
    | BufferFile buffer => buffer
    end in
  createQuery (ImportBody database) w.

Definition destroy (w : World) : Completion PromiseId * World :=
  createQuery DestroyBody w.

(** ** The continuations that change the client *)

(** [createCallbackFunction], line 229. *)
Definition createCallbackFunction_then (funcName : string) (func : CallbackUserFunction)
    (s : Settlement) (w : World) : Completion unit * World :=
  match await s with
  | Throw e => (Throw e, w)
  | Normal _ => (Normal (), with_userCallbacks (<[funcName := func]>) w)
  end.

(** [createScalarFunction], line 242. *)
Definition createScalarFunction_then (funcName : string) (func : ScalarUserFunction)
    (s : Settlement) (w : World) : Completion unit * World :=
  match await s with
  | Throw e => (Throw e, w)
  | Normal _ =>
      (Normal (), with_proxy (<[String.append "_sqlocal_func_" funcName := func]>) w)
  end.

(** [destroy], lines 294-298. *)
Definition destroy_then (s : Settlement) (w : World) : Completion unit * World :=
  match await s with
  | Throw e => (Throw e, w)
  | Normal _ =>
      let w := with_worker removeEventListener w in
      let w := with_queriesInProgress (λ _, ∅) w in
      let w := with_userCallbacks (λ _, ∅) w in
      let w := with_worker terminate w in
      (Normal (), with_isWorkerDestroyed true w)
  end.

(** ** The public methods built on [exec] and [execBatch]

    [sqlTag] and [convertRowsToObjects] come from [lib/]; they are pure
    helpers and enter here as they are. *)

Section Shaping.

Variable sqlTag : list string → list JsValue → Statement.
Variable convertRowsToObjects : list JsValue → list string → list JsValue.

Inductive QueryTemplate :=
| TemplateString (text : string)
| TemplateStrings (strings : list string).

Definition sql_statement (queryTemplate : QueryTemplate) (params : list JsValue)
    : Statement :=
  match queryTemplate with
  | TemplateString text => {| statement_sql := text; statement_params := params |}
  | TemplateStrings strings => sqlTag strings params
  end.

(** [sql], lines 180-199. *)
Definition sql (queryTemplate : QueryTemplate) (params : list JsValue) (w : World)
    : Completion PromiseId * World :=
  let statement := sql_statement queryTemplate params in
  exec (statement_sql statement) (statement_params statement) all w.

Definition sql_then (s : Settlement) : Completion (list JsValue) :=
  match exec_then s with
  | Throw e => Throw e
  | Normal r => Normal (convertRowsToObjects (rows r) (columns r))
  end.

(** [transaction], lines 201-211.  [passStatements] is the caller's function:
    it runs first, and may throw before anything is dispatched. *)
Definition transaction
    (passStatements : (list string → list JsValue → Statement)
                      → Completion (list Statement))
    (w : World) : Completion PromiseId * World :=
  match passStatements sqlTag with
  | Throw e => (Throw e, w)
  | Normal statements => execBatch statements w
  end.

Definition transaction_then (statements : list Statement) (s : Settlement)
    : Completion (list (option (list JsValue))) :=
  match execBatch_then statements s with
  | Throw e => Throw e
  | Normal r =>
      Normal (map (option_map (λ d, convertRowsToObjects (rows d) (columns d))) r)
  end.

(** [batch], lines 213-217. *)
Definition batch
    (passStatements : (list string → list JsValue → Statement)
                      → Completion (list Statement))
    (w : World) : Completion PromiseId * World :=
  transaction passStatements w.

End Shaping.

(** ** Runs of the client

    The methods that reach [createQuery]; [sql], [transaction] and [batch]
    enter through [exec] and [execBatch]. *)

Inductive Call :=
| call_exec (sql : string) (params : list JsValue) (method : Sqlite3Method)
| call_execBatch (statements : list Statement)
| call_createCallbackFunction (funcName : string) (func : CallbackUserFunction)
| call_createScalarFunction (funcName : string) (func : ScalarUserFunction)
| call_getDatabaseInfo
| call_overwriteDatabaseFile (databaseFile : DatabaseFile)
| call_destroy.

(** The call, up to its [await]. *)
Definition start (c : Call) (w : World) : Completion PromiseId * World :=
  match c with
  | call_exec sql params method => exec sql params method w
  | call_execBatch statements => execBatch statements w
  | call_createCallbackFunction funcName func => createCallbackFunction funcName func w
  | call_createScalarFunction funcName func => createScalarFunction funcName func w
  | call_getDatabaseInfo => getDatabaseInfo w
  | call_overwriteDatabaseFile databaseFile => overwriteDatabaseFile databaseFile w
  | call_destroy => destroy w
  end.

(** What the rest of the call does to the world once its promise is settled. *)
Definition finish (c : Call) (s : Settlement) (w : World) : World :=
  match c with
  | call_createCallbackFunction funcName func =>
      (createCallbackFunction_then funcName func s w).2
  | call_createScalarFunction funcName func =>
      (createScalarFunction_then funcName func s w).2
  | call_destroy => (destroy_then s w).2
  | _ => w
  end.

(** The request a call dispatches. *)
Definition request_of (c : Call) : Body :=
  match c with
  | call_exec sql params method => QueryBody sql params method
  | call_execBatch statements => BatchBody statements
  | call_createCallbackFunction funcName _ => FunctionBody funcName callback
  | call_createScalarFunction funcName _ => FunctionBody funcName scalar
  | call_getDatabaseInfo => GetInfoBody
  | call_overwriteDatabaseFile (BlobFile database)
  | call_overwriteDatabaseFile (BufferFile database) => ImportBody database
  | call_destroy => DestroyBody
  end.

(** The worlds a client can be in: it is constructed with a key supply that
    never yields the empty string, methods are called, the worker's messages
    are handled while the listener is attached, and suspended calls go on.
    Calls may go on at any time and with any settlement: every interleaving
    of the event loop is among these runs. *)
Inductive reachable : World → Prop :=
| reachable_constructor path keys u :
    (∀ n, keys n ≠ "") →
    reachable (constructor path keys u)
| reachable_start c w :
    reachable w →
    reachable (start c w).2
| reachable_message message w :
    reachable w →
    listening (worker (client w)) = true →
    reachable (processMessageEvent message w).2
| reachable_finish c s w :
    reachable w →
    reachable (finish c s w).

(** What holds of the registry in every such world. *)
Record consistent (w : World) : Prop := {
  supply_truthy : ∀ n, entropy w n ≠ "";
  entry_truthy : ∀ k v, queriesInProgress (client w) !! k = Some v → k ≠ "";
  entry_pending : ∀ k v, queriesInProgress (client w) !! k = Some v →
    ∃ p, v = (resolve_of p, reject_of p) ∧ promises w !! p = Some None;
  entry_own_promise : ∀ k1 k2 v,
    queriesInProgress (client w) !! k1 = Some v →
    queriesInProgress (client w) !! k2 = Some v → k1 = k2;
}.

End Client.

Arguments SQLocal : clear implicits.
Arguments World : clear implicits.
Arguments Call : clear implicits.
Arguments CallbackUserFunction : clear implicits.

(** ** Steps of a run *)

Section Runs.

Context {U : Type}.

(** One step of the event loop on the client: a method is called, a message
    of the worker is handled while the listener is attached, or a suspended
    call goes on. *)
Inductive step : World U → World U → Prop :=
| step_start c w : step w (start c w).2
| step_message message w :
    listening (worker (client w)) = true →
    step w (processMessageEvent message w).2
| step_finish c s w : step w (finish c s w).

Definition runs : World U → World U → Prop := rtc step.

(** A pending promise whose two functions no entry of the registry holds. *)
Definition orphaned (p : PromiseId) (w : World U) : Prop :=
  promises w !! p = Some None
  ∧ ∀ k resolve reject,
      queriesInProgress (client w) !! k = Some (resolve, reject) →
      resolve ≠ resolve_of p ∧ reject ≠ reject_of p.

End Runs.

(** ** [getDatabaseFile] (lines 255-273)

    The path of the database is cut at every slash and backslash, empty
    parts are dropped, and the last part names the file.  The origin private
    file system is the browser's: its four operations enter as they are. *)

Definition is_separator (c : Ascii.ascii) : bool :=
  Ascii.eqb c "/"%char || Ascii.eqb c "\"%char.

(** No character of the string is a slash or a backslash. *)
Fixpoint separator_free (s : string) : bool :=
  match s with
  | EmptyString => true
  | String c rest => negb (is_separator c) && separator_free rest
  end.

(** Every character of the string is a slash or a backslash. *)
Fixpoint only_separators (s : string) : bool :=
  match s with
  | EmptyString => true
  | String c rest => is_separator c && only_separators rest
  end.

(** [s.split(/[\\/]/)] *)
Fixpoint split_path (s : string) : list string :=
  match s with
  | EmptyString => [EmptyString]
  | String c rest =>
      if is_separator c then EmptyString :: split_path rest
      else
        match split_path rest with
        | part :: parts => String c part :: parts
        | [] => [String c EmptyString]
        end
  end.

(** [.filter((part) => part !== '')] *)
Definition path_parts (databasePath : string) : list string :=
  filter (λ part, part ≠ EmptyString) (split_path databasePath).

(** [path.pop()]: the last element, and the array without it. *)
Definition pop {A} (l : list A) : option A * list A :=
  match reverse l with
  | [] => (None, [])
  | x :: before => (Some x, reverse before)
  end.

Definition fileNameError : JsValue :=
  JsError "Failed to parse the database file name.".

Record JsFile (Content : Type) := {
  file_bits : list Content;
  file_name : string;
  file_type : string;
}.
Arguments file_bits {Content} _.
Arguments file_name {Content} _.
Arguments file_type {Content} _.

Section Storage.

Context {U : Type}.
Variables DirectoryHandle FileHandle Content : Type.
Variable getDirectory : Completion DirectoryHandle.
Variable getDirectoryHandle : DirectoryHandle → string → Completion DirectoryHandle.
Variable getFileHandle : DirectoryHandle → string → Completion FileHandle.
Variable getFile : FileHandle → Completion Content.

(** The [for] loop of lines 264-265. *)
Fixpoint walk (dirHandle : DirectoryHandle) (path : list string)
    : Completion DirectoryHandle :=
  match path with
  | [] => Normal dirHandle
  | dirName :: path =>
      match getDirectoryHandle dirHandle dirName with
      | Throw e => Throw e
      | Normal dirHandle => walk dirHandle path
      end
  end.

Definition getDatabaseFile (w : World U) : Completion (JsFile Content) :=
  let '(fileName, path) := pop (path_parts (databasePath (client w))) in
  match fileName with
  | None => Throw fileNameError
  | Some fileName =>
      match getDirectory with
      | Throw e => Throw e
      | Normal dirHandle =>
          match walk dirHandle path with
          | Throw e => Throw e
          | Normal dirHandle =>
              match getFileHandle dirHandle fileName with
              | Throw e => Throw e
              | Normal fileHandle =>
                  match getFile fileHandle with
                  | Throw e => Throw e
                  | Normal file =>
                      Normal {| file_bits := [file];
                                file_name := fileName;
                                file_type := "application/x-sqlite3" |}
                  end
              end
          end
      end
  end.

End Storage.

(** ** A concrete client, for examples *)

Definition sample_keys (n : nat) : QueryKey :=
  match n with
  | 0 => "V1StGXR8_Z5jdHi6B-myT"
  | 1 => "Uakgb_J5m9g-0JDMbcJqL"
  | _ => "IRFa-VaY2b3kP0qxQ9ZLm"
  end.

Definition sample_world : World (list (list JsValue)) :=
  constructor "database.sqlite3" sample_keys [].

(** Two requests in flight; the reply to the second arrives first. *)
Definition two_in_flight : World (list (list JsValue)) :=
  (start (call_exec "SELECT 2" [] all)
     (start (call_exec "SELECT 1" [] all) sample_world).2).2.

Definition late_error : OutputMessage :=
  ErrorMessage (Some "Uakgb_J5m9g-0JDMbcJqL") (JsError "constraint failed").

(** The worker's acknowledgement of the first request of [sample_world]. *)
Definition acknowledgement : OutputMessage :=
  SuccessMessage (Some "V1StGXR8_Z5jdHi6B-myT").

(** A client torn down: [destroy()] is dispatched, the worker acknowledges
    it, and the call goes on past its [await]. *)
Definition destroyed_world : World (list (list JsValue)) :=
  (destroy_then (Fulfilled acknowledgement)
     (processMessageEvent acknowledgement (destroy sample_world).2).2).2.

(** An error reply that answers no pending request. *)
Definition stray_error : OutputMessage :=
  ErrorMessage (Some "4f90d13a42") (JsError "disk I/O error").

Definition insert_pasta : Statement :=
  {| statement_sql := "INSERT INTO groceries (name) VALUES (?) RETURNING name";
     statement_params := [JsString "pasta"] |}.

Definition insert_sauce : Statement :=
  {| statement_sql := "INSERT INTO groceries (name) VALUES (?) RETURNING name";
     statement_params := [JsString "sauce"] |}.

Definition select_names : Statement :=
  {| statement_sql := "SELECT name FROM groceries"; statement_params := [] |}.

Definition pasta_row : RawResultData :=
  {| rows := [JsArray [JsString "pasta"]]; columns := ["name"] |}.

Definition sauce_row : RawResultData :=
  {| rows := [JsArray [JsString "sauce"]]; columns := ["name"] |}.

(** A handler that records the arguments it is called with. *)
Definition record_arguments : CallbackUserFunction (list (list JsValue)) :=
  λ args calls, (Normal (JsString "recorded"), args :: calls).

(** A client on which [record_arguments] has been registered as "onInsert". *)
Definition listening_world : World (list (list JsValue)) :=
  (createCallbackFunction_then "onInsert" record_arguments (Fulfilled acknowledgement)
     (processMessageEvent acknowledgement
        (createCallbackFunction "onInsert" record_arguments sample_world).2).2).2.

(** A file system for examples: a handle is the list of names walked so
    far, and a file contains its own path. *)
Definition sample_getDirectoryHandle (dirHandle : list string) (name : string)
    : Completion (list string) :=
  Normal (dirHandle ++ [name]).

Definition sample_getFile (fileHandle : list string) : Completion string :=
  Normal (String.concat "/" fileHandle).

(** A key supply that hands out the same key again and again. *)
Definition repeating_keys (n : nat) : QueryKey := "V1StGXR8_Z5jdHi6B-myT".

(** One request pending on a client whose next key is the key of that
    request. *)
Definition colliding_world : World (list (list JsValue)) :=
  (start (call_exec "SELECT 1" [] all)
     (constructor "database.sqlite3" repeating_keys [])).2.

(** [destroy()] has gone on while two requests were still pending. *)
Definition abandoned_world : World (list (list JsValue)) :=
  finish call_destroy (Fulfilled acknowledgement) two_in_flight.

Definition groceries_info : OutputMessage :=
  InfoMessage (Some "V1StGXR8_Z5jdHi6B-myT")
    (JsArray [JsString "groceries.sqlite3"; JsNumber 4096]).

Definition pasta_reply : OutputMessage :=
  DataMessage (Some "V1StGXR8_Z5jdHi6B-myT") [pasta_row].

Definition database_image : Bytes := [Byte.x53; Byte.x51; Byte.x4c].

(** A client whose database lies two directories deep, and one whose path
    names nothing. *)
Definition nested_world : World (list (list JsValue)) :=
  constructor "backups/2024/groceries.sqlite3" sample_keys [].

Definition nameless_world : World (list (list JsValue)) :=
  constructor "//\" sample_keys [].

(** A tagged template joined without its parameters, and rows kept as they
    are: stand-ins for the helpers of [lib/]. *)
Definition sample_sqlTag (strings : list string) (params : list JsValue) : Statement :=
  {| statement_sql := String.concat "?" strings; statement_params := params |}.

Definition sample_convertRowsToObjects (rows : list JsValue) (columns : list string)
    : list JsValue :=
  rows.

(** * Properties *)

Section Properties.

Context {U : Type}.
Implicit Types (w : World U) (message : OutputMessage) (k : QueryKey).

(** ** Equations of the handler and of the dispatch *)

Lemma truthy_Some k : k ≠ "" → truthy (Some k) = Some k.
Proof. intros Hk. unfold truthy. by destruct (decide (k = "")). Qed.

Lemma truthy_inv o k : truthy o = Some k → o = Some k ∧ k ≠ "".
Proof.
  destruct o as [s|]; simpl; [|done].
  destruct (decide (s = "")); [done|]. intros [= <-]. done.
Qed.

Lemma processMessageEvent_hit message w k resolve reject :
  output_type message ≠ type_callback →
  output_queryKey message = Some k →
  k ≠ "" →
  queriesInProgress (client w) !! k = Some (resolve, reject) →
  processMessageEvent message w =
    (Normal (),
     with_queriesInProgress (delete k)
       (with_promises (settled_by message resolve reject) w)).
Proof.
  intros Hty Hkey Hk Hq.
  destruct message; simpl in *; try done; subst;
    rewrite (truthy_Some _ Hk); simpl; rewrite Hq; reflexivity.
Qed.

Lemma processMessageEvent_miss message w :
  output_type message ≠ type_callback →
  (∀ k, output_queryKey message = Some k → queriesInProgress (client w) !! k = None) →
  processMessageEvent message w =
    (match message with ErrorMessage _ e => Throw e | _ => Normal () end, w).
Proof.
  intros Hty Hmiss.
  assert (truthy (output_queryKey message)
            ≫= (λ k, pair k <$> queriesInProgress (client w) !! k) = None) as Hnone.
  { destruct (truthy (output_queryKey message)) as [k|] eqn:Ht; [|done].
    apply truthy_inv in Ht as [Ht _]. simpl. by rewrite (Hmiss _ Ht). }
  destruct message; simpl in *; try done; by rewrite Hnone.
Qed.

Lemma createQuery_destroyed (b : Body) w :
  isWorkerDestroyed (client w) = true →
  createQuery b w = (Throw destroyedError, w).
Proof. intros Hd. unfold createQuery. by rewrite Hd. Qed.

Lemma createQuery_active (b : Body) w :
  isWorkerDestroyed (client w) = false →
  createQuery b w =
    (Normal (length (promises w)),
     with_queriesInProgress
       (<[entropy w 0 := (resolve_of (length (promises w)),
                          reject_of (length (promises w)))]>)
       (with_promises (λ ps, ps ++ [None])
          (with_worker
             (postMessage {| body := b; queryKey := Some (entropy w 0) |} (transfer_of b))
             (nanoid w).2))).
Proof. intros Ha. unfold createQuery. rewrite Ha. by destruct b. Qed.

Lemma start_createQuery (c : Call U) w : start c w = createQuery (request_of c) w.
Proof. destruct c as [| | | | |[]|]; reflexivity. Qed.

(** ** The registry invariant *)

Lemma settled_by_settle message p :
  settled_by message (resolve_of p) (reject_of p) = settle p (settlement_of message).
Proof. by destruct message. Qed.

Lemma settle_pending p s (ps : list (option Settlement)) :
  ps !! p = Some None → settle p s ps !! p = Some (Some s).
Proof.
  intros Hp. unfold settle. rewrite Hp.
  apply list_lookup_insert_eq. by eapply lookup_lt_Some.
Qed.

Lemma settle_other p q s (ps : list (option Settlement)) :
  p ≠ q → settle p s ps !! q = ps !! q.
Proof.
  intros Hne. unfold settle.
  destruct (ps !! p) as [[?|]|]; [done| |done].
  by apply list_lookup_insert_ne.
Qed.

Lemma processMessageEvent_cases message w :
  (∃ name args, message = CallbackMessage name args)
  ∨ (∃ k resolve reject,
        output_queryKey message = Some k ∧ k ≠ ""
        ∧ queriesInProgress (client w) !! k = Some (resolve, reject)
        ∧ processMessageEvent message w =
            (Normal (),
             with_queriesInProgress (delete k)
               (with_promises (settled_by message resolve reject) w)))
  ∨ (processMessageEvent message w).2 = w.
Proof.
  destruct (decide (output_type message = type_callback)) as [Hc|Hc].
  { left. destruct message; try done. eauto. }
  right.
  destruct (truthy (output_queryKey message)) as [k|] eqn:Ht.
  - apply truthy_inv in Ht as [Hk Hne].
    destruct (queriesInProgress (client w) !! k) as [[resolve reject]|] eqn:Hq.
    + left. exists k, resolve, reject. split_and!; try done.
      by apply processMessageEvent_hit.
    + right. rewrite processMessageEvent_miss; [done|done|].
      intros k' Hk'. congruence.
  - right. destruct message; simpl in *; try done; by rewrite Ht.
Qed.

Lemma constructor_consistent path keys (u : U) :
  (∀ n, keys n ≠ "") → consistent (constructor path keys u).
Proof. intros Hkeys. split; simpl; [done|..]; intros * H; by rewrite lookup_empty in H. Qed.

Lemma createQuery_consistent (b : Body) w :
  consistent w → consistent (createQuery b w).2.
Proof.
  intros [Hs Ht Hp Ho].
  destruct (isWorkerDestroyed (client w)) eqn:Hd.
  { rewrite createQuery_destroyed; [|done]. by split. }
  rewrite createQuery_active; [|done]. simpl.
  assert (∀ k v, queriesInProgress (client w) !! k = Some v →
            v ≠ (resolve_of (length (promises w)), reject_of (length (promises w))))
    as Hfresh.
  { intros k v Hk ->. destruct (Hp _ _ Hk) as (p & [= <-] & Hpend).
    apply lookup_lt_Some in Hpend. lia. }
  split; simpl.
  - intros n. apply Hs.
  - intros k v [[<- _]|[_ Hk]]%lookup_insert_Some; [apply Hs | by eapply Ht].
  - intros k v [[_ <-]|[_ Hk]]%lookup_insert_Some.
    + eexists. split; [done|]. by rewrite lookup_app_r, Nat.sub_diag.
    + destruct (Hp _ _ Hk) as (p & -> & Hpend). exists p. split; [done|].
      rewrite lookup_app_l; [done|]. by eapply lookup_lt_Some.
  - intros k1 k2 v [[<- <-]|[_ H1]]%lookup_insert_Some
                   [[<- Hv]|[_ H2]]%lookup_insert_Some; try done.
    + by destruct (Hfresh _ _ H2).
    + symmetry in Hv. by destruct (Hfresh _ _ H1).
    + by eapply Ho.
Qed.

Lemma processMessageEvent_consistent message w :
  consistent w → consistent (processMessageEvent message w).2.
Proof.
  intros [Hs Ht Hp Ho].
  destruct (processMessageEvent_cases message w)
    as [(name & args & ->) | [(k & resolve & reject & Hkey & Hne & Hq & ->) | ->]];
    [| |by split].
  - simpl. destruct (userCallbacks (client w) !! name) as [f|]; [|by split].
    destruct (f (default [] args) (app w)) as [r u]. by split.
  - destruct (Hp _ _ Hq) as (p & [= -> ->] & Hpend).
    rewrite settled_by_settle. split; simpl.
    + done.
    + intros k' v [_ Hk']%lookup_delete_Some. by eapply Ht.
    + intros k' v [Hkk Hk']%lookup_delete_Some.
      destruct (Hp _ _ Hk') as (p' & -> & Hpend'). exists p'. split; [done|].
      rewrite settle_other; [done|]. intros ->. by destruct Hkk; eapply Ho.
    + intros k1 k2 v [_ H1]%lookup_delete_Some [_ H2]%lookup_delete_Some.
      by eapply Ho.
Qed.

Lemma finish_consistent (c : Call U) s w :
  consistent w → consistent (finish c s w).
Proof.
  intros [Hs Ht Hp Ho].
  destruct c; simpl; try by split.
  - unfold createCallbackFunction_then. destruct (await s); by split.
  - unfold createScalarFunction_then. destruct (await s); by split.
  - unfold destroy_then. destruct (await s); [|by split].
    split; simpl; [done|..]; intros * H; by rewrite lookup_empty in H.
Qed.

Lemma reachable_consistent w : reachable w → consistent w.
Proof.
  induction 1 as [path keys u Hkeys|c w _ IH|message w _ IH _|c s w _ IH].
  - by apply constructor_consistent.
  - rewrite start_createQuery. by apply createQuery_consistent.
  - by apply processMessageEvent_consistent.
  - by apply finish_consistent.
Qed.

(** The handler's truthiness test: an entry under the empty key, which no
    reachable registry has, would never be found by a reply. *)
Remark falsy_key_never_matches w message :
  output_type message ≠ type_callback →
  output_queryKey message = Some "" →
  (processMessageEvent message w).2 = w.
Proof. intros Hty Hkey. destruct message; simpl in *; try done; by subst. Qed.

(** A request and its reply: the promise the call waits on is settled with
    the reply that carries the key minted for the call. *)
Lemma dispatch_then_reply (c : Call U) w message :
  reachable w →
  isWorkerDestroyed (client w) = false →
  output_type message ≠ type_callback →
  output_queryKey message = Some (nanoid w).1 →
  ∃ p, (start c w).1 = Normal p
     ∧ promises (processMessageEvent message (start c w).2).2 !! p
       = Some (Some (settlement_of message)).
Proof.
  intros Hreach Ha Hty Hkey.
  destruct (reachable_consistent _ Hreach) as [Hs _ _ _].
  rewrite start_createQuery, createQuery_active by done. simpl.
  eexists. split; [done|].
  erewrite processMessageEvent_hit; [|done|done|apply Hs|apply lookup_insert_eq].
  simpl. rewrite settled_by_settle. apply settle_pending.
  by rewrite lookup_app_r, Nat.sub_diag.
Qed.

(** ** Routing of correlated replies *)

(** C1. For every reply of kind success, data, error or info whose key has
    an entry in the registry of a reachable client, the handler returns
    normally and calls exactly the pair stored under that key: the reject
    function with the carried error for an error reply, the resolve function
    with the message otherwise.  That pair belongs to one pending promise,
    which is thereby settled; every other promise is left as it was.  The
    entry is removed, every other entry of the registry is kept, and nothing
    else of the client changes.  The statement holds in every reachable
    world, so for every order in which replies arrive. *)
Theorem C1_reply_settles_registered_pair w message k resolve reject :
  reachable w →
  output_type message ≠ type_callback →
  output_queryKey message = Some k →
  queriesInProgress (client w) !! k = Some (resolve, reject) →
  let r := processMessageEvent message w in
  r.1 = Normal ()
  ∧ promises r.2 =
      match message with
      | ErrorMessage _ e => call_reject reject e (promises w)
      | _ => call_resolve resolve message (promises w)
      end
  ∧ (∃ p, resolve = resolve_of p ∧ reject = reject_of p
          ∧ promises w !! p = Some None
          ∧ promises r.2 !! p =
              Some (Some match message with
                         | ErrorMessage _ e => Rejected e
                         | _ => Fulfilled message
                         end)
          ∧ ∀ q, q ≠ p → promises r.2 !! q = promises w !! q)
  ∧ queriesInProgress (client r.2) !! k = None
  ∧ (∀ k', k' ≠ k →
       queriesInProgress (client r.2) !! k' = queriesInProgress (client w) !! k')
  ∧ userCallbacks (client r.2) = userCallbacks (client w)
  ∧ worker (client r.2) = worker (client w)
  ∧ isWorkerDestroyed (client r.2) = isWorkerDestroyed (client w)
  ∧ app r.2 = app w.
Proof.
  intros Hreach Hty Hkey Hq r.
  destruct (reachable_consistent _ Hreach) as [_ Ht Hp _].
  pose proof (Ht _ _ Hq) as Hne.
  destruct (Hp _ _ Hq) as (p & [= -> ->] & Hpend).
  subst r. rewrite (processMessageEvent_hit _ _ _ _ _ Hty Hkey Hne Hq). simpl.
  split_and!; try done.
  - by destruct message.
  - exists p. rewrite settled_by_settle. split_and!; try done.
    + rewrite (settle_pending _ _ _ Hpend). by destruct message.
    + intros q Hqp. by apply settle_other.
  - apply lookup_delete_eq.
  - intros k' Hk'. by apply lookup_delete_ne.
Qed.

(** C4. For every reply of kind success, data, error or info whose key has
    no entry in the registry (or that has no key): an error reply makes the
    handler throw the carried error; a reply of another kind is ignored and
    the handler returns normally.  In both cases the registry, and the whole
    world, is left as it was. *)
Theorem C4_unmatched_reply w message :
  output_type message ≠ type_callback →
  (∀ k, output_queryKey message = Some k →
        queriesInProgress (client w) !! k = None) →
  (processMessageEvent message w).2 = w
  ∧ (∀ key e, message = ErrorMessage key e →
       (processMessageEvent message w).1 = Throw e)
  ∧ (output_type message ≠ type_error →
       (processMessageEvent message w).1 = Normal ()).
Proof.
  intros Hty Hmiss. rewrite (processMessageEvent_miss _ _ Hty Hmiss). simpl.
  split_and!; [done| |].
  - by intros key e ->.
  - by destruct message.
Qed.

(** ** The callback router *)

(** C8. For every callback notification the registry and the promises are
    left as they were, and the outcome does not depend on the registry: run
    on a world whose registry has been replaced, the handler does the same.
    If a handler is registered under the name, it is called with the
    arguments of the message (none when the message has none) on the
    application state; what it returns is dropped and the event handler
    returns normally.  If no handler is registered the world is unchanged
    and the event handler returns normally. *)
Theorem C8_callback_notification w name args :
  let r := processMessageEvent (CallbackMessage name args) w in
  queriesInProgress (client r.2) = queriesInProgress (client w)
  ∧ promises r.2 = promises w
  ∧ (∀ g, processMessageEvent (CallbackMessage name args) (with_queriesInProgress g w)
          = (r.1, with_queriesInProgress g r.2))
  ∧ (∀ userCallback,
       userCallbacks (client w) !! name = Some userCallback →
       r.2 = with_app (userCallback (default [] args) (app w)).2 w
       ∧ ∀ v, (userCallback (default [] args) (app w)).1 = Normal v →
              r.1 = Normal ())
  ∧ (userCallbacks (client w) !! name = None → r = (Normal (), w)).
Proof.
  simpl. destruct (userCallbacks (client w) !! name) as [f|] eqn:Hf.
  - destruct (f (default [] args) (app w)) as [c u] eqn:Hcall.
    split_and!; try done.
    + intros userCallback [= <-]. rewrite Hcall. simpl. split; [done|].
      by intros v ->.
  - by split_and!.
Qed.

(** ** The lifecycle guard *)

Lemma destroy_then_destroyed message w :
  isWorkerDestroyed (client (destroy_then (Fulfilled message) w).2) = true.
Proof. reflexivity. Qed.

(** The flag is only ever set: no step of a run clears it. *)
Lemma destroyed_is_final w :
  isWorkerDestroyed (client w) = true →
  (∀ c : Call U, isWorkerDestroyed (client (start c w).2) = true)
  ∧ (∀ message, isWorkerDestroyed (client (processMessageEvent message w).2) = true)
  ∧ (∀ (c : Call U) s, isWorkerDestroyed (client (finish c s w)) = true).
Proof.
  intros Hd. split_and!.
  - intros c. by rewrite start_createQuery, createQuery_destroyed.
  - intros message.
    destruct (processMessageEvent_cases message w)
      as [(name & args & ->) | [(k & resolve & reject & _ & _ & _ & ->) | ->]];
      [|done|done].
    simpl. destruct (userCallbacks (client w) !! name) as [f|]; [|done].
    by destruct (f (default [] args) (app w)).
  - intros c s. destruct c; simpl; try done.
    + unfold createCallbackFunction_then. by destruct (await s).
    + unfold createScalarFunction_then. by destruct (await s).
    + unfold destroy_then. by destruct (await s).
Qed.

(** C2, as amended. Once the destroyed flag is set, every method that
    dispatches a request throws the destroyed-client error at [createQuery],
    before [nanoid()] and [postMessage], and the world, in particular the
    list of messages posted to the worker, is what it was.  This covers
    [exec], [execBatch], [createCallbackFunction], [createScalarFunction],
    [getDatabaseInfo], [destroy] and [overwriteDatabaseFile] (for a [File]
    or [Blob], from the point where its [arrayBuffer()] has resolved), and
    [sql], [transaction] and [batch] built on them (the last two once the
    caller's own function has returned its statements).  [getDatabaseFile]
    dispatches nothing and does not read the flag: it gives what it gives
    on the same client with the flag cleared. *)
Theorem C2_destroyed_client_fails_locally w :
  isWorkerDestroyed (client w) = true →
  (∀ b, createQuery b w = (Throw destroyedError, w))
  ∧ (∀ c : Call U, start c w = (Throw destroyedError, w))
  ∧ (∀ c : Call U,
       posted (worker (client (start c w).2)) = posted (worker (client w)))
  ∧ (∀ sqlTag queryTemplate params,
       sql sqlTag queryTemplate params w = (Throw destroyedError, w))
  ∧ (∀ sqlTag passStatements statements,
       passStatements sqlTag = Normal statements →
       transaction sqlTag passStatements w = (Throw destroyedError, w)
       ∧ batch sqlTag passStatements w = (Throw destroyedError, w))
  ∧ (∀ DirectoryHandle FileHandle Content getDirectory getDirectoryHandle
       getFileHandle getFile,
       getDatabaseFile DirectoryHandle FileHandle Content
         getDirectory getDirectoryHandle getFileHandle getFile w
       = getDatabaseFile DirectoryHandle FileHandle Content
           getDirectory getDirectoryHandle getFileHandle getFile
           (with_isWorkerDestroyed false w)).
Proof.
  intros Hd.
  assert (∀ b, createQuery b w = (Throw destroyedError, w)) as Hq
    by (intros b; by apply createQuery_destroyed).
  split_and!; try done.
  - intros c. by rewrite start_createQuery.
  - intros c. by rewrite start_createQuery, Hq.
  - intros. apply Hq.
  - intros sqlTag passStatements statements Hpass.
    unfold batch, transaction. rewrite Hpass. split; apply Hq.
Qed.

(** C9. When a first [destroy()] has gone past its [await] with a fulfilled
    promise, and so has set the flag, a second [destroy()] throws the
    destroyed-client error at its dispatch: its promise is rejected, nothing
    is posted, and the world is left as the first call made it. *)
Theorem C9_second_destroy_rejects message w :
  let destroyed := (destroy_then (Fulfilled message) w).2 in
  isWorkerDestroyed (client destroyed) = true
  ∧ destroy destroyed = (Throw destroyedError, destroyed).
Proof. simpl. split; [done|]. unfold destroy. by apply createQuery_destroyed. Qed.

(** ** Decoding the reply *)

(** C5. [exec] dispatches a query request.  When the promise is fulfilled
    with a data reply, the call returns the rows and the columns of the
    first result set of the reply; when it is fulfilled with a success or an
    info reply, the call returns (it does not throw) the result set whose
    rows and columns are both empty. *)
Theorem C5_exec_result :
  (∀ (w : World U) sql params method,
     exec sql params method w = createQuery (QueryBody sql params method) w)
  ∧ (∀ key first rest,
       exec_then (Fulfilled (DataMessage key (first :: rest)))
       = Normal {| rows := rows first; columns := columns first |})
  ∧ (∀ key,
       exec_then (Fulfilled (SuccessMessage key))
       = Normal {| rows := []; columns := [] |})
  ∧ (∀ key i,
       exec_then (Fulfilled (InfoMessage key i))
       = Normal {| rows := []; columns := [] |}).
Proof. by split_and!. Qed.

(** C10. [exec] reads element 0 of the result sets of a data reply with no
    test for emptiness.  On a data reply with no result set the read of
    [rows] on [undefined] throws a [TypeError], so the call fails and does
    not fall back to the empty result set; on every other reply that
    fulfils the promise the call returns. *)
Theorem C10_exec_on_empty_data message :
  match message with
  | DataMessage _ [] =>
      exec_then (Fulfilled message) = Throw undefinedRowsError
      ∧ exec_then (Fulfilled message) ≠ Normal emptyResult
  | _ => ∃ r, exec_then (Fulfilled message) = Normal r
  end.
Proof.
  destruct message as [|key [|first rest]| | |]; simpl; eauto.
Qed.

(** ** Registration of callback functions *)

(** C6. [createCallbackFunction n f] leaves the handler map as it was while
    it dispatches the registration, and the message handler never changes
    the handler map, so nothing is recorded while the request is pending.
    When the awaited promise is rejected, the call throws the rejection
    value and the world, with its handler map, is unchanged.  When it is
    fulfilled, the handler map gains [n ↦ f] and nothing else changes in
    it. *)
Theorem C6_callback_registered_on_acknowledgement
    (w : World U) funcName (func : CallbackUserFunction U) :
  userCallbacks (client (createCallbackFunction funcName func w).2)
    = userCallbacks (client w)
  ∧ (∀ message,
       userCallbacks (client (processMessageEvent message w).2)
       = userCallbacks (client w))
  ∧ (∀ e, createCallbackFunction_then funcName func (Rejected e) w = (Throw e, w))
  ∧ (∀ message,
       (createCallbackFunction_then funcName func (Fulfilled message) w).1 = Normal ()
       ∧ userCallbacks
           (client (createCallbackFunction_then funcName func (Fulfilled message) w).2)
         = <[funcName := func]> (userCallbacks (client w))).
Proof.
  split_and!.
  - unfold createCallbackFunction.
    destruct (isWorkerDestroyed (client w)) eqn:Hd.
    + by rewrite createQuery_destroyed.
    + by rewrite createQuery_active.
  - intros message.
    destruct (processMessageEvent_cases message w)
      as [(name & args & ->) | [(k & resolve & reject & _ & _ & _ & ->) | ->]];
      [|done|done].
    simpl. destruct (userCallbacks (client w) !! name) as [f|]; [|done].
    by destruct (f (default [] args) (app w)).
  - done.
  - done.
Qed.

(** ** Batches *)

Lemma array_set_at_end {A} (x : A) (pre a : list (option A)) :
  array_set (length pre) x (pre ++ a) = (pre ++ [Some x]) ++ drop 1 a.
Proof.
  unfold array_set. rewrite length_app. destruct a as [|y a]; simpl.
  - destruct (decide (length pre < length pre + 0)); [lia|].
    by rewrite Nat.add_0_r, Nat.sub_diag, !app_nil_r.
  - destruct (decide (length pre < length pre + S (length a))); [|lia].
    rewrite <- (Nat.add_0_r (length pre)) at 1. rewrite insert_app_r. simpl.
    by rewrite drop_0, <- (assoc_L (++)).
Qed.

Lemma forEach_from_array_set {A} (l : list A) (pre a : list (option A)) :
  forEach_from (λ x j, array_set j x) (length pre) l (pre ++ a)
  = pre ++ (Some <$> l) ++ drop (length l) a.
Proof.
  revert pre a. induction l as [|x l IH]; intros pre a; simpl.
  - by rewrite drop_0.
  - rewrite array_set_at_end.
    replace (S (length pre)) with (length (pre ++ [Some x]))
      by (rewrite length_app; simpl; lia).
    rewrite IH, drop_drop, <- (assoc_L (++)). done.
Qed.

Lemma execBatch_then_fulfilled statements message :
  execBatch_then statements (Fulfilled message)
  = Normal ((Some <$> reply_results message)
            ++ replicate (length statements - length (reply_results message))
                 (Some emptyResult)).
Proof.
  unfold execBatch_then, fill, new_Array. simpl. rewrite length_replicate.
  destruct message as [|key d| | |]; simpl; rewrite ?Nat.sub_0_r; try done.
  unfold forEach.
  pose proof (forEach_from_array_set d []
                (replicate (length statements) (Some emptyResult))) as Hset.
  simpl in Hset. by rewrite Hset, drop_replicate.
Qed.

(** The length of the array in general: the larger of the two counts. *)
Lemma execBatch_then_length statements message out :
  execBatch_then statements (Fulfilled message) = Normal out →
  length out = length statements `max` length (reply_results message).
Proof.
  rewrite execBatch_then_fulfilled. intros [= <-].
  rewrite length_app, length_fmap, length_replicate. lia.
Qed.

(** C3, as amended. For every batch over a list of statements and every reply
    that fulfils the promise with at most as many result sets as there are
    statements (a data reply with that many, or a reply of another kind),
    [execBatch] returns an array with exactly one slot per statement, none
    of them a hole: slot [i] holds the [i]-th result set of the reply when
    the reply has one and the empty result set otherwise. *)
Theorem C3_batch_result_has_one_slot_per_statement statements message :
  length (reply_results message) ≤ length statements →
  ∃ out,
    execBatch_then statements (Fulfilled message) = Normal out
    ∧ length out = length statements
    ∧ ∀ i, i < length statements →
        out !! i = Some (Some (default emptyResult (reply_results message !! i))).
Proof.
  intros Hle. eexists. split; [apply execBatch_then_fulfilled|]. split.
  - rewrite length_app, length_fmap, length_replicate. lia.
  - intros i Hi.
    destruct (reply_results message !! i) as [r|] eqn:Hr; simpl.
    + rewrite lookup_app_l by (rewrite length_fmap; by eapply lookup_lt_Some).
      by rewrite list_lookup_fmap, Hr.
    + apply lookup_ge_None in Hr.
      rewrite lookup_app_r by (by rewrite length_fmap).
      rewrite length_fmap. apply lookup_replicate_2. lia.
Qed.

(** ** Keys on the envelopes *)

Lemma processMessageEvent_worker message w :
  worker (client (processMessageEvent message w).2) = worker (client w).
Proof.
  destruct (processMessageEvent_cases message w)
    as [(name & args & ->) | [(k & resolve & reject & _ & _ & _ & ->) | ->]];
    [|done|done].
  simpl. destruct (userCallbacks (client w) !! name) as [f|]; [|done].
  by destruct (f (default [] args) (app w)).
Qed.

Lemma finish_posted (c : Call U) s w :
  posted (worker (client (finish c s w))) = posted (worker (client w)).
Proof.
  destruct c; simpl; try done.
  - unfold createCallbackFunction_then. by destruct (await s).
  - unfold createScalarFunction_then. by destruct (await s).
  - unfold destroy_then. by destruct (await s).
Qed.

Lemma request_of_not_config (c : Call U) : type_of (request_of c) ≠ MessageType.config.
Proof. by destruct c as [| | | | |[]|]. Qed.

Lemma start_posted (c : Call U) w :
  isWorkerDestroyed (client w) = false →
  posted (worker (client (start c w).2))
  = posted (worker (client w))
      ++ [({| body := request_of c; queryKey := Some (nanoid w).1 |},
           transfer_of (request_of c))].
Proof. intros Ha. by rewrite start_createQuery, createQuery_active. Qed.

Lemma reachable_posted_keyed w m t :
  reachable w →
  (m, t) ∈ posted (worker (client w)) →
  queryKey m = None ↔ type_of (body m) = MessageType.config.
Proof.
  intros Hreach. revert m t.
  induction Hreach as [path keys u Hkeys|c w _ IH|message w _ IH _|c s w _ IH];
    intros m t Hin.
  - simpl in Hin. apply list_elem_of_singleton in Hin as [= -> ->]. done.
  - destruct (isWorkerDestroyed (client w)) eqn:Hd.
    + rewrite start_createQuery, createQuery_destroyed in Hin by done. by eapply IH.
    + rewrite start_posted in Hin by done.
      apply elem_of_app in Hin as [Hin|Hin]; [by eapply IH|].
      apply list_elem_of_singleton in Hin as [= -> ->]. simpl.
      split; [done|]. intros Hc. by destruct (request_of_not_config c).
  - rewrite processMessageEvent_worker in Hin. by eapply IH.
  - rewrite finish_posted in Hin. by eapply IH.
Qed.

(** C7, as amended. In every reachable world an envelope posted to the
    worker has no key if and only if it is the config message of the
    constructor.  Every call that dispatches on a client that is not
    destroyed posts exactly one more envelope, which carries the request
    and the key [nanoid()] returned for this call, and registers its promise
    under that key.  In particular the destroy request is posted with a
    key. *)
Theorem C7_every_envelope_but_config_is_keyed w :
  reachable w →
  (∀ m t, (m, t) ∈ posted (worker (client w)) →
     (queryKey m = None ↔ type_of (body m) = MessageType.config))
  ∧ (∀ c : Call U, isWorkerDestroyed (client w) = false →
       posted (worker (client (start c w).2))
       = posted (worker (client w))
           ++ [({| body := request_of c; queryKey := Some (nanoid w).1 |},
                transfer_of (request_of c))]
       ∧ ∃ p, (start c w).1 = Normal p
            ∧ queriesInProgress (client (start c w).2) !! (nanoid w).1
              = Some (resolve_of p, reject_of p))
  ∧ (isWorkerDestroyed (client w) = false →
       posted (worker (client (destroy w).2))
       = posted (worker (client w))
           ++ [({| body := DestroyBody; queryKey := Some (nanoid w).1 |}, [])]).
Proof.
  intros Hreach. split_and!.
  - intros m t. by apply reachable_posted_keyed.
  - intros c Ha. split; [by apply start_posted|].
    rewrite start_createQuery, createQuery_active by done. simpl.
    eexists. split; [done|]. apply lookup_insert_eq.
  - intros Ha. by apply (start_posted call_destroy).
Qed.

End Properties.

Lemma sample_keys_truthy n : sample_keys n ≠ "".
Proof. by destruct n as [|[|n]]. Qed.

Lemma two_in_flight_reachable : reachable two_in_flight.
Proof. do 2 apply reachable_start. apply reachable_constructor, sample_keys_truthy. Qed.

Lemma C1_reply_settles_registered_pair_witness :
  promises (processMessageEvent late_error two_in_flight).2
    = [None; Some (Rejected (JsError "constraint failed"))]
  ∧ queriesInProgress (client (processMessageEvent late_error two_in_flight).2)
      !! "V1StGXR8_Z5jdHi6B-myT"
    = Some (resolve_of 0, reject_of 0).
Proof.
  destruct (C1_reply_settles_registered_pair two_in_flight late_error
              "Uakgb_J5m9g-0JDMbcJqL" (resolve_of 1) (reject_of 1))
    as (_ & Hps & _ & _ & Hothers & _);
    [apply two_in_flight_reachable | done | reflexivity | by vm_compute |].
  split.
  - rewrite Hps. by vm_compute.
  - rewrite Hothers; [by vm_compute | done].
Defined.

(** ** The lifecycle guard on a client that was torn down *)

Lemma C2_destroyed_client_fails_locally_witness :
  start (call_exec "SELECT name FROM groceries" [] all) destroyed_world
    = (Throw destroyedError, destroyed_world)
  ∧ posted (worker (client destroyed_world))
    = [({| body := ConfigBody "databasePath" "database.sqlite3"; queryKey := None |}, []);
       ({| body := DestroyBody; queryKey := Some "V1StGXR8_Z5jdHi6B-myT" |}, [])].
Proof.
  assert (isWorkerDestroyed (client destroyed_world) = true) as Hd by (by vm_compute).
  destruct (C2_destroyed_client_fails_locally destroyed_world Hd) as (_ & Hstart & _).
  split; [apply Hstart | by vm_compute].
Defined.

(** ** A stray error on a client with two requests in flight *)

Lemma C4_unmatched_reply_witness :
  processMessageEvent stray_error two_in_flight
  = (Throw (JsError "disk I/O error"), two_in_flight).
Proof.
  destruct (C4_unmatched_reply two_in_flight stray_error) as (Hworld & Hthrow & _).
  - done.
  - intros k [= <-]. by vm_compute.
  - rewrite (surjective_pairing (processMessageEvent stray_error two_in_flight)).
    by rewrite Hworld, (Hthrow _ _ eq_refl).
Defined.

(** ** Batches answered with too few and with too many result sets *)

Lemma C3_batch_result_has_one_slot_per_statement_witness :
  ∃ out,
    execBatch_then [insert_pasta; insert_sauce; select_names]
      (Fulfilled (DataMessage (Some "V1StGXR8_Z5jdHi6B-myT") [pasta_row])) = Normal out
    ∧ length out = 3
    ∧ ∀ i, i < 3 →
        out !! i = Some (Some (default emptyResult ([pasta_row] !! i))).
Proof.
  apply (C3_batch_result_has_one_slot_per_statement
           [insert_pasta; insert_sauce; select_names]
           (DataMessage (Some "V1StGXR8_Z5jdHi6B-myT") [pasta_row])).
  simpl. lia.
Defined.

(** One statement, a data reply with two result sets: the write at index 1
    extends the array, which comes back with two elements. *)
Lemma C3_counterexample :
  execBatch_then [insert_pasta]
    (Fulfilled (DataMessage (Some "V1StGXR8_Z5jdHi6B-myT") [pasta_row; sauce_row]))
  = Normal [Some pasta_row; Some sauce_row]
  ∧ length [Some pasta_row; Some sauce_row] = 2
  ∧ length [insert_pasta] = 1.
Proof. by split_and!. Defined.

(** ** The key of the destroy request *)

(** [destroy()] on a new client: the envelope posted after the config
    message is of type destroy and has a key. *)
Lemma C7_counterexample :
  posted (worker (client (destroy sample_world).2))
  = [({| body := ConfigBody "databasePath" "database.sqlite3"; queryKey := None |}, []);
     ({| body := DestroyBody; queryKey := Some "V1StGXR8_Z5jdHi6B-myT" |}, [])]
  ∧ type_of DestroyBody = MessageType.destroy.
Proof. split; [by vm_compute | done]. Defined.

Lemma C7_every_envelope_but_config_is_keyed_witness :
  posted (worker (client (destroy two_in_flight).2))
  = posted (worker (client two_in_flight))
      ++ [({| body := DestroyBody; queryKey := Some "IRFa-VaY2b3kP0qxQ9ZLm" |}, [])].
Proof.
  destruct (C7_every_envelope_but_config_is_keyed two_in_flight two_in_flight_reachable)
    as (_ & _ & Hdestroy).
  rewrite Hdestroy; by vm_compute.
Defined.

(** ** A notification for a registered handler *)

Lemma C8_callback_notification_witness :
  processMessageEvent (CallbackMessage "onInsert" (Some [JsString "pasta"])) listening_world
  = (Normal (), with_app [[JsString "pasta"]] listening_world).
Proof.
  destruct (C8_callback_notification listening_world "onInsert" (Some [JsString "pasta"]))
    as (_ & _ & _ & Hcall & _).
  destruct (Hcall record_arguments) as [Hworld Hreturn]; [by vm_compute|].
  rewrite (surjective_pairing (processMessageEvent _ listening_world)).
  by rewrite Hworld, (Hreturn (JsString "recorded")).
Defined.

(** * Further properties of the client *)

Section Handler.

Context {U : Type}.
Implicit Types (w : World U) (message : OutputMessage) (k : QueryKey).

Lemma settle_length p s (ps : list (option Settlement)) :
  length (settle p s ps) = length ps.
Proof.
  unfold settle. destruct (ps !! p) as [[?|]|]; [done| |done].
  apply length_insert.
Qed.

Lemma settle_settled (p q : PromiseId) s s' (ps : list (option Settlement)) :
  ps !! q = Some (Some s) → settle p s' ps !! q = Some (Some s).
Proof.
  intros Hq. destruct (decide (p = q)) as [->|Hne].
  - unfold settle. by rewrite Hq.
  - by rewrite settle_other.
Qed.

Lemma settled_by_length message resolve reject (ps : list (option Settlement)) :
  length (settled_by message resolve reject ps) = length ps.
Proof. destruct resolve, reject, message; apply settle_length. Qed.

Lemma settled_by_settled message resolve reject (q : PromiseId) s
    (ps : list (option Settlement)) :
  ps !! q = Some (Some s) →
  settled_by message resolve reject ps !! q = Some (Some s).
Proof. destruct resolve, reject, message; apply settle_settled. Qed.

(** A reply whose key is falsy or has no entry. *)
Lemma processMessageEvent_none message w :
  output_type message ≠ type_callback →
  truthy (output_queryKey message)
    ≫= (λ k, pair k <$> queriesInProgress (client w) !! k) = None →
  processMessageEvent message w =
    (match message with ErrorMessage _ e => Throw e | _ => Normal () end, w).
Proof. intros Hty Hnone. destruct message; simpl in *; try done; by rewrite Hnone. Qed.

Lemma processMessageEvent_reply message w :
  output_type message ≠ type_callback →
  (∃ k resolve reject,
      output_queryKey message = Some k ∧ k ≠ ""
      ∧ queriesInProgress (client w) !! k = Some (resolve, reject)
      ∧ processMessageEvent message w =
          (Normal (),
           with_queriesInProgress (delete k)
             (with_promises (settled_by message resolve reject) w)))
  ∨ processMessageEvent message w =
      (match message with ErrorMessage _ e => Throw e | _ => Normal () end, w).
Proof.
  intros Hty.
  destruct (truthy (output_queryKey message)) as [k|] eqn:Ht.
  - apply truthy_inv in Ht as [Hk Hne].
    destruct (queriesInProgress (client w) !! k) as [[resolve reject]|] eqn:Hq.
    + left. exists k, resolve, reject. split_and!; try done.
      by apply processMessageEvent_hit.
    + right. apply processMessageEvent_none; [done|].
      rewrite Hk, (truthy_Some _ Hne). simpl. by rewrite Hq.
  - right. apply processMessageEvent_none; [done|]. by rewrite Ht.
Qed.

(** X1. For every message of kind success, data, error or info, matched or
    not, the handler posts nothing to the worker, creates no promise, adds
    no entry to the registry (an entry present afterwards was present
    before, with the same pair), and leaves the destroyed flag, both
    function maps, the database path, the key supply and the state of the
    application as they were. *)
Theorem handler_frame message w :
  output_type message ≠ type_callback →
  let w' := (processMessageEvent message w).2 in
  worker (client w') = worker (client w)
  ∧ length (promises w') = length (promises w)
  ∧ queriesInProgress (client w') ⊆ queriesInProgress (client w)
  ∧ isWorkerDestroyed (client w') = isWorkerDestroyed (client w)
  ∧ userCallbacks (client w') = userCallbacks (client w)
  ∧ proxy (client w') = proxy (client w)
  ∧ databasePath (client w') = databasePath (client w)
  ∧ entropy w' = entropy w
  ∧ app w' = app w.
Proof.
  intros Hc.
  destruct (processMessageEvent_reply message w Hc)
    as [(k & resolve & reject & _ & _ & _ & ->) | ->]; simpl; [|done].
  split_and!; try done.
  - apply settled_by_length.
  - apply delete_subseteq.
Qed.

(** X2. A correlated reply handled a second time finds no entry: the second
    handling leaves the world as the first one made it, is silent for a
    success, data or info reply, and throws the carried error for an error
    reply. *)
Theorem duplicate_reply_is_stray message w :
  output_type message ≠ type_callback →
  processMessageEvent message (processMessageEvent message w).2
  = (match message with ErrorMessage _ e => Throw e | _ => Normal () end,
     (processMessageEvent message w).2).
Proof.
  intros Hty.
  destruct (processMessageEvent_reply message w Hty)
    as [(k & resolve & reject & Hkey & Hne & _ & ->) | Hmiss].
  - apply processMessageEvent_none; [done|].
    rewrite Hkey, (truthy_Some _ Hne). simpl. by rewrite lookup_delete_eq.
  - rewrite Hmiss. simpl. done.
Qed.

End Handler.

(** ** What every reachable world satisfies *)

Section Invariants.

Context {U : Type}.
Implicit Types (w : World U) (message : OutputMessage) (k : QueryKey).

(** The three shapes of the world after the handler has run. *)
Lemma processMessageEvent_shape message w :
  (∃ u, (processMessageEvent message w).2 = with_app u w)
  ∨ (∃ k resolve reject,
        output_queryKey message = Some k
        ∧ queriesInProgress (client w) !! k = Some (resolve, reject)
        ∧ (processMessageEvent message w).2
          = with_queriesInProgress (delete k)
              (with_promises (settled_by message resolve reject) w))
  ∨ (processMessageEvent message w).2 = w.
Proof.
  destruct (processMessageEvent_cases message w)
    as [(name & args & ->) | [(k & resolve & reject & Hk & _ & Hq & ->) | ->]].
  - simpl. destruct (userCallbacks (client w) !! name) as [f|]; [|by right; right].
    destruct (f (default [] args) (app w)) as [r u]. left. by exists u.
  - right; left. by exists k, resolve, reject.
  - by right; right.
Qed.

(** The four shapes of the world after a suspended call has gone on. *)
Lemma finish_shape (c : Call U) s w :
  finish c s w = w
  ∨ (∃ f, finish c s w = with_userCallbacks f w)
  ∨ (∃ f, finish c s w = with_proxy f w)
  ∨ (∃ message, finish c s w = (destroy_then (Fulfilled message) w).2).
Proof.
  destruct c; simpl; try by left.
  - unfold createCallbackFunction_then. destruct s; simpl; [|by left].
    right; left. by eexists.
  - unfold createScalarFunction_then. destruct s; simpl; [|by left].
    right; right; left. by eexists.
  - destruct s as [message|e]; [|by left]. right; right; right. by exists message.
Qed.

Lemma reachable_requests w :
  reachable w →
  length (posted (worker (client w))) = S (length (promises w))
  ∧ ∀ k p reject,
      queriesInProgress (client w) !! k = Some (resolve_of p, reject) →
      ∃ b, posted (worker (client w)) !! S p
           = Some ({| body := b; queryKey := Some k |}, transfer_of b).
Proof.
  induction 1 as [path keys u Hkeys|c w _ [IHlen IH]|message w _ [IHlen IH] _
                 |c s w _ [IHlen IH]].
  - split; [done|]. simpl. intros k p reject Hk. by rewrite lookup_empty in Hk.
  - rewrite start_createQuery.
    destruct (isWorkerDestroyed (client w)) eqn:Hd.
    { by rewrite createQuery_destroyed. }
    rewrite createQuery_active by done. simpl. split.
    { rewrite !length_app, IHlen. simpl. lia. }
    intros k p reject [[<- [= <- <-]]|[_ Hk]]%lookup_insert_Some.
    + exists (request_of c). rewrite <- IHlen.
      by rewrite lookup_app_r, Nat.sub_diag.
    + destruct (IH _ _ _ Hk) as [b Hb]. exists b.
      by apply lookup_app_l_Some.
  - destruct (processMessageEvent_shape message w)
      as [[u ->] | [(k & resolve & reject & _ & _ & ->) | ->]]; simpl; [done| |done].
    split; [by rewrite settled_by_length|].
    intros k' p reject' [_ Hk']%lookup_delete_Some. by eapply IH.
  - destruct (finish_shape c s w) as [-> | [[f ->] | [[f ->] | [message ->]]]];
      simpl; done.
Qed.

(** X3. In every reachable world each entry of the registry has a non-empty
    key and holds the resolve and the reject function of one and the same
    promise; that promise is pending, and no other entry holds its pair. *)
Theorem registry_entries_own_pending_promises w k resolve reject :
  reachable w →
  queriesInProgress (client w) !! k = Some (resolve, reject) →
  k ≠ ""
  ∧ ∃ p, resolve = resolve_of p ∧ reject = reject_of p
       ∧ promises w !! p = Some None
       ∧ ∀ k', queriesInProgress (client w) !! k' = Some (resolve, reject) → k' = k.
Proof.
  intros Hreach Hk. destruct (reachable_consistent _ Hreach) as [_ Ht Hp Ho].
  split; [by eapply Ht|].
  destruct (Hp _ _ Hk) as (p & [= -> ->] & Hpend).
  exists p. split_and!; try done. intros k' Hk'. by eapply Ho.
Qed.

(** X4. In every reachable world the worker has been posted the config
    message and then exactly one request per promise created, in the same
    order; an entry of the registry under key [k] holds the promise of the
    request that was posted with key [k]. *)
Theorem registry_entry_matches_posted_request w k p reject :
  reachable w →
  queriesInProgress (client w) !! k = Some (resolve_of p, reject) →
  length (posted (worker (client w))) = S (length (promises w))
  ∧ ∃ b, posted (worker (client w)) !! S p
         = Some ({| body := b; queryKey := Some k |}, transfer_of b).
Proof.
  intros Hreach Hk. destruct (reachable_requests _ Hreach) as [Hlen Hposted].
  split; [done|]. by eapply Hposted.
Qed.

Lemma reachable_config_first w :
  reachable w →
  ∃ requests,
    posted (worker (client w))
    = ({| body := ConfigBody "databasePath" (databasePath (client w));
          queryKey := None |}, []) :: requests
    ∧ Forall (λ request, is_Some (queryKey request.1)) requests.
Proof.
  induction 1 as [path keys u Hkeys|c w _ (requests & IH & Hall)
                 |message w _ (requests & IH & Hall) _
                 |c s w _ (requests & IH & Hall)].
  - by exists [].
  - rewrite start_createQuery.
    destruct (isWorkerDestroyed (client w)) eqn:Hd.
    { rewrite createQuery_destroyed by done. by exists requests. }
    rewrite createQuery_active by done. simpl. rewrite IH.
    eexists. split; [done|]. apply Forall_app. split; [done|].
    by apply Forall_singleton.
  - destruct (processMessageEvent_shape message w)
      as [[u ->] | [(k & resolve & reject & _ & _ & ->) | ->]]; simpl;
      by exists requests.
  - destruct (finish_shape c s w) as [-> | [[f ->] | [[f ->] | [message ->]]]];
      simpl; by exists requests.
Qed.

(** X5. In every reachable world the first message the worker was posted is
    the config message that carries the database path of the client, with no
    key and nothing transferred; every message after it carries a key. *)
Theorem config_is_posted_first w :
  reachable w →
  posted (worker (client w)) !! 0
  = Some ({| body := ConfigBody "databasePath" (databasePath (client w));
             queryKey := None |}, [])
  ∧ ∀ i m t, posted (worker (client w)) !! S i = Some (m, t) →
             is_Some (queryKey m).
Proof.
  intros Hreach.
  destruct (reachable_config_first _ Hreach) as (requests & Hposted & Hall).
  rewrite Hposted. split; [done|].
  intros i m t Hi. simpl in Hi.
  by apply (Forall_lookup_1 _ _ _ _ Hall Hi).
Qed.

End Invariants.

(** ** What holds along every run *)

Section Along.

Context {U : Type}.
Implicit Types (w : World U) (message : OutputMessage) (k : QueryKey).

Lemma runs_reachable w w' : reachable w → runs w w' → reachable w'.
Proof.
  intros Hreach Hruns. induction Hruns as [w|w w1 w' Hstep _ IH]; [done|].
  apply IH. destruct Hstep; by constructor.
Qed.

Lemma step_settled w w' (p : PromiseId) s :
  step w w' →
  promises w !! p = Some (Some s) → promises w' !! p = Some (Some s).
Proof.
  intros Hstep Hp. destruct Hstep as [c w|message w _|c s' w].
  - rewrite start_createQuery.
    destruct (isWorkerDestroyed (client w)) eqn:Hd.
    { by rewrite createQuery_destroyed. }
    rewrite createQuery_active by done. simpl. by apply lookup_app_l_Some.
  - destruct (processMessageEvent_shape message w)
      as [[u ->] | [(k & resolve & reject & _ & _ & ->) | ->]]; simpl; [done| |done].
    by apply settled_by_settled.
  - by destruct (finish_shape c s' w) as [-> | [[f ->] | [[f ->] | [message ->]]]].
Qed.

Lemma settled_by_other message (p q r : PromiseId) (ps : list (option Settlement)) :
  resolve_of p ≠ resolve_of r → reject_of q ≠ reject_of r →
  settled_by message (resolve_of p) (reject_of q) ps !! r = ps !! r.
Proof.
  intros Hp Hq. destruct message; simpl; apply settle_other; congruence.
Qed.

Lemma step_orphaned w w' p : step w w' → orphaned p w → orphaned p w'.
Proof.
  intros Hstep [Hpend Hfree]. destruct Hstep as [c w|message w _|c s w].
  - rewrite start_createQuery.
    destruct (isWorkerDestroyed (client w)) eqn:Hd.
    { by rewrite createQuery_destroyed. }
    rewrite createQuery_active by done. split; simpl.
    + by apply lookup_app_l_Some.
    + intros k resolve reject [[_ [= <- <-]]|[_ Hk]]%lookup_insert_Some;
        [|by eapply Hfree].
      apply lookup_lt_Some in Hpend. split; intros [= ?]; lia.
  - destruct (processMessageEvent_shape message w)
      as [[u ->] | [(k & resolve & reject & _ & Hk & ->) | ->]]; [done| |done].
    split; simpl.
    + destruct (Hfree _ _ _ Hk) as [Hres Hrej]. destruct resolve, reject.
      by rewrite settled_by_other.
    + intros k' resolve' reject' [_ Hk']%lookup_delete_Some. by eapply Hfree.
  - by destruct (finish_shape c s w) as [-> | [[f ->] | [[f ->] | [message ->]]]].
Qed.

Lemma runs_orphaned w w' p : runs w w' → orphaned p w → orphaned p w'.
Proof.
  intros Hruns. induction Hruns as [w|w w1 w' Hstep _ IH]; [done|].
  intros Horphan. apply IH. by eapply step_orphaned.
Qed.

(** X7. A pending promise whose resolve and reject functions are held by no
    entry of the registry stays pending along every run: nothing can settle
    it any more. *)
Theorem orphaned_promise_never_settles w w' p :
  runs w w' → orphaned p w → promises w' !! p = Some None.
Proof. intros Hruns Horphan. by destruct (runs_orphaned _ _ _ Hruns Horphan). Qed.

(** X8. When [nanoid()] hands out a key under which a request is still
    pending, the new request takes over the entry; the promise of the older
    request stays pending along every run from there, whatever replies
    arrive. *)
Theorem reused_key_orphans_pending_request (c : Call U) w w' p reject :
  reachable w →
  isWorkerDestroyed (client w) = false →
  queriesInProgress (client w) !! (nanoid w).1 = Some (resolve_of p, reject) →
  runs (start c w).2 w' →
  queriesInProgress (client (start c w).2) !! (nanoid w).1
    = Some (resolve_of (length (promises w)), reject_of (length (promises w)))
  ∧ promises w' !! p = Some None.
Proof.
  intros Hreach Ha Hk Hruns.
  destruct (reachable_consistent _ Hreach) as [_ _ Hp Ho].
  destruct (Hp _ _ Hk) as (p' & [= <- ->] & Hpend).
  assert (orphaned p (start c w).2) as Horphan.
  { rewrite start_createQuery, createQuery_active by done. split; simpl.
    - by apply lookup_app_l_Some.
    - intros k resolve reject' [[_ [= <- <-]]|[Hne Hk']]%lookup_insert_Some.
      + apply lookup_lt_Some in Hpend. split; intros [= ?]; lia.
      + destruct (Hp _ _ Hk') as (q & [= -> ->] & _).
        split; intros [= ->]; destruct Hne; by eapply Ho. }
  split.
  - rewrite start_createQuery, createQuery_active by done. simpl.
    apply lookup_insert_eq.
  - by destruct (runs_orphaned _ _ _ Hruns Horphan).
Qed.

(** Torn down: the flag is set, the listener is gone, the worker is
    terminated and the registry is empty. *)
Lemma step_torn_down w w' :
  step w w' →
  isWorkerDestroyed (client w) = true →
  listening (worker (client w)) = false →
  terminated (worker (client w)) = true →
  queriesInProgress (client w) = ∅ →
  (isWorkerDestroyed (client w') = true
   ∧ listening (worker (client w')) = false
   ∧ terminated (worker (client w')) = true
   ∧ queriesInProgress (client w') = ∅)
  ∧ posted (worker (client w')) = posted (worker (client w))
  ∧ promises w' = promises w.
Proof.
  intros Hstep Hd Hl Ht Hq. destruct Hstep as [c w|message w Hlistening|c s w].
  - by rewrite start_createQuery, createQuery_destroyed.
  - congruence.
  - by destruct (finish_shape c s w) as [-> | [[f ->] | [[f ->] | [message ->]]]].
Qed.

Lemma runs_torn_down w w' :
  runs w w' →
  isWorkerDestroyed (client w) = true →
  listening (worker (client w)) = false →
  terminated (worker (client w)) = true →
  queriesInProgress (client w) = ∅ →
  (isWorkerDestroyed (client w') = true
   ∧ listening (worker (client w')) = false
   ∧ terminated (worker (client w')) = true
   ∧ queriesInProgress (client w') = ∅)
  ∧ posted (worker (client w')) = posted (worker (client w))
  ∧ promises w' = promises w.
Proof.
  intros Hruns. induction Hruns as [w|w w1 w' Hstep _ IH]; [done|].
  intros Hd Hl Ht Hq.
  destruct (step_torn_down _ _ Hstep Hd Hl Ht Hq)
    as ((Hd1 & Hl1 & Ht1 & Hq1) & <- & <-).
  by apply IH.
Qed.

(** X9. Once [destroy()] has gone past its [await] with a fulfilled promise,
    the handler map and the registry are empty, the listener is removed, the
    worker is terminated and the flag is set; and along every run from
    there nothing more is posted to the worker, no promise is created or
    settled (a request still pending at that point stays pending), the
    registry stays empty and the flag stays set. *)
Theorem destroy_is_final message w w' :
  let destroyed := (destroy_then (Fulfilled message) w).2 in
  runs destroyed w' →
  userCallbacks (client destroyed) = ∅
  ∧ posted (worker (client w')) = posted (worker (client w))
  ∧ promises w' = promises w
  ∧ queriesInProgress (client w') = ∅
  ∧ isWorkerDestroyed (client w') = true
  ∧ listening (worker (client w')) = false
  ∧ terminated (worker (client w')) = true.
Proof.
  simpl. intros Hruns. split; [done|].
  by destruct (runs_torn_down _ _ Hruns) as ((? & ? & ? & ?) & ? & ?).
Qed.

(** X10. In every reachable world in which the destroyed flag is set, the
    message listener has been removed, the worker has been terminated and
    the registry is empty: the flag is only ever set at the end of the
    teardown. *)
Theorem destroyed_flag_means_torn_down w :
  reachable w →
  isWorkerDestroyed (client w) = true →
  listening (worker (client w)) = false
  ∧ terminated (worker (client w)) = true
  ∧ queriesInProgress (client w) = ∅.
Proof.
  induction 1 as [path keys u Hkeys|c w _ IH|message w _ IH Hlistening|c s w _ IH].
  - done.
  - rewrite start_createQuery.
    destruct (isWorkerDestroyed (client w)) eqn:Hd.
    + rewrite createQuery_destroyed by done. by intros _; apply IH.
    + rewrite createQuery_active by done. simpl. congruence.
  - destruct (processMessageEvent_shape message w)
      as [[u ->] | [(k & resolve & reject & _ & _ & ->) | ->]]; simpl;
      intros Hd; destruct (IH Hd); congruence.
  - destruct (finish_shape c s w) as [-> | [[f ->] | [[f ->] | [message ->]]]];
      simpl; try done.
Qed.

End Along.

(** ** Requests and their replies *)

Section RoundTrips.

Context {U : Type}.
Implicit Types (w : World U) (message : OutputMessage) (k : QueryKey).

(** X11. On a reachable client that is not destroyed, for every call that
    hands nothing to the worker by transfer (every call but the import of
    [overwriteDatabaseFile]), the reply that carries the key minted for the
    call is handled without a throw, settles the
    promise that call waits on (rejected with the error for an error reply,
    fulfilled with the reply otherwise), and removes the entry of the call;
    the entries of the requests that were already pending under other keys
    are kept. *)
Theorem reply_settles_the_call_it_answers (c : Call U) w message :
  reachable w →
  type_of (request_of c) ≠ MessageType.import →
  isWorkerDestroyed (client w) = false →
  output_type message ≠ type_callback →
  output_queryKey message = Some (nanoid w).1 →
  let after := processMessageEvent message (start c w).2 in
  after.1 = Normal ()
  ∧ (∃ p, (start c w).1 = Normal p
        ∧ promises after.2 !! p = Some (Some (settlement_of message)))
  ∧ queriesInProgress (client after.2) !! (nanoid w).1 = None
  ∧ ∀ k, k ≠ (nanoid w).1 →
      queriesInProgress (client after.2) !! k = queriesInProgress (client w) !! k.
Proof.
  intros Hreach _ Ha Hty Hkey.
  destruct (reachable_consistent _ Hreach) as [Hs _ _ _].
  rewrite start_createQuery, createQuery_active by done. simpl.
  erewrite processMessageEvent_hit; [|done|done|apply Hs|apply lookup_insert_eq].
  simpl. rewrite settled_by_settle. split_and!; try done.
  - eexists. split; [done|]. apply settle_pending.
    by rewrite lookup_app_r, Nat.sub_diag.
  - apply lookup_delete_eq.
  - intros k Hk. by rewrite lookup_delete_ne, lookup_insert_ne.
Qed.

(** X12. [getDatabaseInfo()] end to end: on a reachable client that is not
    destroyed, once the reply with the minted key has been handled the call
    returns the payload of an info reply, throws the carried error of an
    error reply, and throws "The database failed to return valid
    information." for a success or a data reply. *)
Theorem getDatabaseInfo_round_trip w message :
  reachable w →
  isWorkerDestroyed (client w) = false →
  output_type message ≠ type_callback →
  output_queryKey message = Some (nanoid w).1 →
  ∃ p s,
    (getDatabaseInfo w).1 = Normal p
    ∧ promises (processMessageEvent message (getDatabaseInfo w).2).2 !! p
      = Some (Some s)
    ∧ getDatabaseInfo_then s
      = match message with
        | InfoMessage _ i => Normal i
        | ErrorMessage _ e => Throw e
        | _ => Throw (JsError "The database failed to return valid information.")
        end.
Proof.
  intros Hreach Ha Hty Hkey.
  destruct (dispatch_then_reply call_getDatabaseInfo w message Hreach Ha Hty Hkey)
    as (p & Hp & Hsettled).
  exists p, (settlement_of message). split_and!; try done.
  by destruct message.
Qed.

Lemma processMessageEvent_no_handler name args w :
  userCallbacks (client w) !! name = None →
  processMessageEvent (CallbackMessage name args) w = (Normal (), w).
Proof.
  intros Hnone. unfold processMessageEvent, CallbackUserFunction in *.
  by rewrite Hnone.
Qed.

(** X13. [createScalarFunction n f]: a rejected promise makes the call throw
    the rejection value and leaves the world as it was; a fulfilled one
    installs [f] on the proxy under "_sqlocal_func_" followed by [n], leaves
    the functions installed for other names in place, and records nothing in
    the map of callback handlers, so a callback message named [n] still does
    nothing unless a callback handler was registered under [n]. *)
Theorem scalar_function_installed_on_acknowledgement
    w funcName (func : ScalarUserFunction) :
  (∀ e, createScalarFunction_then funcName func (Rejected e) w = (Throw e, w))
  ∧ ∀ message,
      let w' := (createScalarFunction_then funcName func (Fulfilled message) w).2 in
      proxy (client w') !! ("_sqlocal_func_" +:+ funcName) = Some func
      ∧ (∀ other, other ≠ funcName →
           proxy (client w') !! ("_sqlocal_func_" +:+ other)
           = proxy (client w) !! ("_sqlocal_func_" +:+ other))
      ∧ userCallbacks (client w') = userCallbacks (client w)
      ∧ (∀ args, userCallbacks (client w) !! funcName = None →
           processMessageEvent (CallbackMessage funcName args) w' = (Normal (), w')).
Proof.
  split; [done|]. intros message w'. split_and!; try done.
  - apply lookup_insert_eq.
  - intros other Hother. apply lookup_insert_ne. intros [= Heq]. by destruct Hother.
  - intros args Hnone. by apply processMessageEvent_no_handler.
Qed.

(** X14. In every reachable world the only thing ever handed to the worker by
    transfer is the database of an import request: the transfer list of a
    posted import is that one buffer, and the transfer list of every other
    posted message is empty. *)
Theorem only_import_transfers w m t :
  reachable w →
  (m, t) ∈ posted (worker (client w)) →
  t = match body m with ImportBody database => [database] | _ => [] end.
Proof.
  intros Hreach. revert m t.
  induction Hreach as [path keys u Hkeys|c w _ IH|message w _ IH _|c s w _ IH];
    intros m t Hin.
  - simpl in Hin. by apply list_elem_of_singleton in Hin as [= -> ->].
  - destruct (isWorkerDestroyed (client w)) eqn:Hd.
    + rewrite start_createQuery, createQuery_destroyed in Hin by done. by apply IH.
    + rewrite start_posted in Hin by done.
      apply elem_of_app in Hin as [Hin|Hin]; [by apply IH|].
      apply list_elem_of_singleton in Hin as [= -> ->]. simpl.
      by destruct (request_of c).
  - rewrite processMessageEvent_worker in Hin. by apply IH.
  - rewrite finish_posted in Hin. by apply IH.
Qed.

(** X15. The array [execBatch] returns for a fulfilled promise, in general:
    it has as many slots as the larger of the number of statements and the
    number of result sets of the reply, none of them a hole; slot [i] holds
    the [i]-th result set of the reply wherever the reply has one, also past
    the last statement, and the empty result set elsewhere.  A rejected
    promise makes the call throw the rejection value. *)
Theorem batch_result_shape statements message :
  (∀ e, execBatch_then statements (Rejected e) = Throw e)
  ∧ ∃ out,
      execBatch_then statements (Fulfilled message) = Normal out
      ∧ length out = length statements `max` length (reply_results message)
      ∧ (∀ i r, reply_results message !! i = Some r → out !! i = Some (Some r))
      ∧ (∀ i, length (reply_results message) ≤ i → i < length statements →
           out !! i = Some (Some emptyResult)).
Proof.
  split; [done|]. eexists. split; [apply execBatch_then_fulfilled|]. split_and!.
  - rewrite length_app, length_fmap, length_replicate. lia.
  - intros i r Hr. apply lookup_app_l_Some. by rewrite list_lookup_fmap, Hr.
  - intros i Hge Hlt. rewrite lookup_app_r by (by rewrite length_fmap).
    rewrite length_fmap. apply lookup_replicate_2. lia.
Qed.

End RoundTrips.

(** ** The path of the database file *)

Section Paths.

Lemma split_path_cons s : ∃ part parts, split_path s = part :: parts.
Proof.
  destruct s as [|c s]; simpl; [by eauto|].
  destruct (is_separator c); [by eauto|].
  destruct (split_path s); by eauto.
Qed.

Lemma split_path_app c a b :
  is_separator c = true →
  split_path (a +:+ String c b) = split_path a ++ split_path b.
Proof.
  intros Hc. induction a as [|x a IH]; simpl.
  - by rewrite Hc.
  - rewrite IH. destruct (is_separator x); [reflexivity|].
    by destruct (split_path_cons a) as (part & parts & ->).
Qed.

Lemma split_path_free s : separator_free s = true → split_path s = [s].
Proof.
  induction s as [|c s IH]; simpl; [done|].
  intros [Hc Hs]%andb_prop. apply negb_true_iff in Hc. by rewrite Hc, IH.
Qed.

Lemma split_path_parts_free s :
  Forall (λ part, separator_free part = true) (split_path s).
Proof.
  induction s as [|c s IH]; simpl.
  - by apply Forall_singleton.
  - destruct (is_separator c) eqn:Hc; [by apply Forall_cons|].
    destruct (split_path s) as [|part parts].
    + apply Forall_singleton. simpl. by rewrite Hc.
    + apply Forall_cons in IH as [Hpart Hparts].
      apply Forall_cons. split; [|done]. simpl. by rewrite Hc.
Qed.

Lemma path_parts_app c a b :
  is_separator c = true →
  path_parts (a +:+ String c b) = path_parts a ++ path_parts b.
Proof. intros Hc. unfold path_parts. by rewrite split_path_app, filter_app. Qed.

Lemma path_parts_free s :
  s ≠ EmptyString → separator_free s = true → path_parts s = [s].
Proof.
  intros Hne Hs. unfold path_parts. rewrite split_path_free by done.
  rewrite filter_cons. by destruct (decide (s ≠ EmptyString)).
Qed.

(** X16. Every part the path is cut into is a name: it is not empty and
    contains neither a slash nor a backslash. *)
Theorem path_parts_are_names databasePath :
  Forall (λ part, part ≠ EmptyString ∧ separator_free part = true)
    (path_parts databasePath).
Proof.
  apply Forall_forall. intros part [Hne Hin]%list_elem_of_filter.
  split; [done|].
  by apply (proj1 (Forall_forall _ _) (split_path_parts_free databasePath)).
Qed.

(** X17. Cutting distributes over a separator: the parts of two paths put
    together with a slash or a backslash between them are the parts of the
    first followed by the parts of the second.  So separators at either end
    and repeated separators add no part. *)
Theorem path_parts_at_separator c a b :
  is_separator c = true →
  path_parts (a +:+ String c b) = path_parts a ++ path_parts b
  ∧ path_parts (String c b) = path_parts b
  ∧ path_parts (a +:+ String c EmptyString) = path_parts a
  ∧ path_parts (a +:+ String c (String c b)) = path_parts a ++ path_parts b.
Proof.
  intros Hc. split_and!.
  - by apply path_parts_app.
  - by apply (path_parts_app c EmptyString b).
  - rewrite path_parts_app by done. apply app_nil_r.
  - rewrite path_parts_app by done. f_equal.
    by apply (path_parts_app c EmptyString b).
Qed.

Lemma path_parts_of_joined_names_aux names :
  Forall (λ part, part ≠ EmptyString ∧ separator_free part = true) names →
  path_parts (String.concat "/" names) = names.
Proof.
  induction names as [|name names IH]; [done|].
  intros [[Hne Hfree] Hnames]%Forall_cons.
  destruct names as [|next names].
  - by apply path_parts_free.
  - change (String.concat "/" (name :: next :: names))
      with (name +:+ String "/" (String.concat "/" (next :: names))).
    rewrite path_parts_app by done.
    by rewrite path_parts_free, IH.
Qed.

(** X18. Names joined with slashes are cut back into the same names, and
    the last of them is the one [pop] takes as the file name. *)
Theorem path_parts_of_joined_names names :
  Forall (λ part, part ≠ EmptyString ∧ separator_free part = true) names →
  path_parts (String.concat "/" names) = names
  ∧ (pop (path_parts (String.concat "/" names))).1 = last names.
Proof.
  intros Hnames. rewrite path_parts_of_joined_names_aux by done.
  split; [done|]. unfold pop.
  destruct names as [|name names] using rev_ind; [done|].
  by rewrite reverse_snoc, last_snoc.
Qed.

Lemma path_parts_only_separators s :
  only_separators s = true → path_parts s = [].
Proof.
  induction s as [|c s IH]; [done|]. simpl.
  intros [Hc Hs]%andb_prop.
  change (String c s) with (EmptyString +:+ String c s).
  rewrite path_parts_app by done. by apply IH.
Qed.

(** X19. A path yields no part exactly when it consists of separators only
    (the empty path included): these are the paths for which [pop] finds no
    file name. *)
Theorem path_without_parts databasePath :
  (path_parts databasePath = [] ↔ only_separators databasePath = true)
  ∧ ((pop (path_parts databasePath)).1 = None ↔ only_separators databasePath = true).
Proof.
  assert (path_parts databasePath = [] ↔ only_separators databasePath = true) as Hiff.
  { induction databasePath as [|c s IH]; simpl; [done|].
    unfold path_parts in *. simpl.
    destruct (is_separator c) eqn:Hc; simpl.
    - rewrite filter_cons. by destruct (decide (EmptyString ≠ EmptyString)).
    - split; [|done]. destruct (split_path s) as [|part parts];
        rewrite filter_cons;
        by destruct (decide (String c _ ≠ EmptyString)) as [|[]]. }
  split; [done|]. rewrite <- Hiff. unfold pop.
  destruct (path_parts databasePath) as [|part parts] using rev_ind; [done|].
  rewrite reverse_snoc. simpl. split; [done|]. intros Hnil.
  by apply app_eq_nil in Hnil as [_ ?].
Qed.

End Paths.

(** ** [getDatabaseFile] *)

Section StorageProperties.

Context {U : Type}.
Variables DirectoryHandle FileHandle Content : Type.
Variable getDirectory : Completion DirectoryHandle.
Variable getDirectoryHandle : DirectoryHandle → string → Completion DirectoryHandle.
Variable getFileHandle : DirectoryHandle → string → Completion FileHandle.
Variable getFile : FileHandle → Completion Content.

Local Abbreviation exportFile :=
  (getDatabaseFile DirectoryHandle FileHandle Content
     getDirectory getDirectoryHandle getFileHandle getFile).

Lemma pop_snoc {A} (l : list A) x : pop (l ++ [x]) = (Some x, l).
Proof. unfold pop. by rewrite reverse_snoc, reverse_involutive. Qed.

Lemma step_databasePath (w w' : World U) :
  step w w' → databasePath (client w') = databasePath (client w).
Proof.
  intros [c w0|message w0 _|c s w0].
  - rewrite start_createQuery.
    destruct (isWorkerDestroyed (client w0)) eqn:Hd.
    + by rewrite createQuery_destroyed.
    + by rewrite createQuery_active.
  - by destruct (processMessageEvent_shape message w0)
      as [[u ->] | [(k & resolve & reject & _ & _ & ->) | ->]].
  - by destruct (finish_shape c s w0) as [-> | [[f ->] | [[f ->] | [message ->]]]].
Qed.

(** X20. When the database path consists of separators only (or is empty),
    [getDatabaseFile()] throws "Failed to parse the database file name."
    whatever the file system holds: the failure comes before any access to
    it. *)
Theorem getDatabaseFile_without_name (w : World U) :
  only_separators (databasePath (client w)) = true →
  exportFile w = Throw fileNameError.
Proof.
  intros Hsep. unfold getDatabaseFile.
  by rewrite (path_parts_only_separators _ Hsep).
Qed.

(** X21. When the database path is a list of names joined with slashes,
    [getDatabaseFile()] asks for the root directory, walks the names but the
    last as directories in order, opens the last name as a file in the
    directory reached, and returns a file of that name and of type
    "application/x-sqlite3" holding what was read; the first access that
    throws ends the call with that error. *)
Theorem getDatabaseFile_walks_the_path (w : World U) dirs name :
  Forall (λ part, part ≠ EmptyString ∧ separator_free part = true) (dirs ++ [name]) →
  databasePath (client w) = String.concat "/" (dirs ++ [name]) →
  exportFile w =
    match getDirectory with
    | Throw e => Throw e
    | Normal root =>
        match walk DirectoryHandle getDirectoryHandle root dirs with
        | Throw e => Throw e
        | Normal dirHandle =>
            match getFileHandle dirHandle name with
            | Throw e => Throw e
            | Normal fileHandle =>
                match getFile fileHandle with
                | Throw e => Throw e
                | Normal file =>
                    Normal {| file_bits := [file]; file_name := name;
                              file_type := "application/x-sqlite3" |}
                end
            end
        end
    end.
Proof.
  intros Hnames Hpath. unfold getDatabaseFile.
  by rewrite Hpath, (path_parts_of_joined_names_aux _ Hnames), pop_snoc.
Qed.

(** X22. [getDatabaseFile()] reads nothing of the client but its database
    path, which no step changes: along every run, also after [destroy()],
    it gives what it gave before on the same file system. *)
Theorem getDatabaseFile_along_runs (w w' : World U) :
  runs w w' → exportFile w' = exportFile w.
Proof.
  intros Hruns. unfold getDatabaseFile.
  assert (databasePath (client w') = databasePath (client w)) as ->; [|done].
  induction Hruns as [w|w w1 w' Hstep _ IH]; [done|].
  by rewrite IH, (step_databasePath _ _ Hstep).
Qed.

End StorageProperties.

(** ** [sql] and [transaction] *)

Section Shaped.

Context {U : Type}.
Variable sqlTag : list string → list JsValue → Statement.
Variable convertRowsToObjects : list JsValue → list string → list JsValue.

(** X23. [sql] end to end, on a reachable client that is not destroyed: the
    call posts one query request with the text and the parameters of the
    statement and the method [all]; once the reply with the minted key has
    been handled it returns the converted rows of the first result set of a
    data reply, the conversion of the empty result set for a success or an
    info reply, and throws the carried error of an error reply. *)
Theorem sql_round_trip queryTemplate params (w : World U) message :
  reachable w →
  isWorkerDestroyed (client w) = false →
  output_type message ≠ type_callback →
  output_queryKey message = Some (nanoid w).1 →
  let statement := sql_statement sqlTag queryTemplate params in
  let called := sql sqlTag queryTemplate params w in
  posted (worker (client called.2))
  = posted (worker (client w))
      ++ [({| body := QueryBody (statement_sql statement)
                        (statement_params statement) all;
              queryKey := Some (nanoid w).1 |}, [])]
  ∧ ∃ p s,
      called.1 = Normal p
      ∧ promises (processMessageEvent message called.2).2 !! p = Some (Some s)
      ∧ sql_then convertRowsToObjects s
        = match message with
          | DataMessage _ (first :: _) =>
              Normal (convertRowsToObjects (rows first) (columns first))
          | DataMessage _ [] => Throw undefinedRowsError
          | ErrorMessage _ e => Throw e
          | _ => Normal (convertRowsToObjects [] [])
          end.
Proof.
  intros Hreach Ha Hty Hkey statement called.
  pose (c := call_exec (U := U) (statement_sql statement)
               (statement_params statement) all).
  change called with (start c w). split.
  - by rewrite start_posted.
  - destruct (dispatch_then_reply c w message Hreach Ha Hty Hkey)
      as (p & Hp & Hsettled).
    exists p, (settlement_of message). split_and!; try done.
    by destruct message as [|? [|first rest]| | |].
Qed.

(** X24. [transaction] and [batch] end to end ([batch] is [transaction]).
    When the caller's function returns statements, on a reachable client
    that is not destroyed, and the reply with the minted key is not an error
    and has at most one result set per statement, the call returns one list
    of records per statement: the converted [i]-th result set where the
    reply has one, the conversion of the empty result set elsewhere. *)
Theorem transaction_round_trip passStatements statements (w : World U) message :
  reachable w →
  isWorkerDestroyed (client w) = false →
  passStatements sqlTag = Normal statements →
  output_type message ≠ type_callback →
  output_type message ≠ type_error →
  output_queryKey message = Some (nanoid w).1 →
  length (reply_results message) ≤ length statements →
  batch sqlTag passStatements w = transaction sqlTag passStatements w
  ∧ ∃ p s out,
      (transaction sqlTag passStatements w).1 = Normal p
      ∧ promises (processMessageEvent message
                    (transaction sqlTag passStatements w).2).2 !! p
        = Some (Some s)
      ∧ transaction_then convertRowsToObjects statements s = Normal out
      ∧ length out = length statements
      ∧ ∀ i, i < length statements →
          out !! i
          = Some (Some (let result := default emptyResult (reply_results message !! i) in
                        convertRowsToObjects (rows result) (columns result))).
Proof.
  intros Hreach Ha Hpass Hty Hne Hkey Hle. split; [done|].
  unfold transaction. rewrite Hpass.
  change (execBatch statements w) with (start (call_execBatch statements) w).
  destruct (dispatch_then_reply (call_execBatch statements) w message Hreach Ha Hty Hkey)
    as (p & Hp & Hsettled).
  assert (settlement_of message = Fulfilled message) as Hfulfilled
    by (by destruct message).
  rewrite Hfulfilled in Hsettled.
  exists p, (Fulfilled message). eexists. split_and!; try done.
  - unfold transaction_then. by rewrite execBatch_then_fulfilled.
  - rewrite length_map, length_app, length_fmap, length_replicate. lia.
  - intros i Hi. simpl.
    change (map ?f ?l) with (f <$> l). rewrite list_lookup_fmap.
    destruct (reply_results message !! i) as [r|] eqn:Hr; simpl.
    + rewrite lookup_app_l by (rewrite length_fmap; by eapply lookup_lt_Some).
      by rewrite list_lookup_fmap, Hr.
    + apply lookup_ge_None in Hr.
      rewrite lookup_app_r by (by rewrite length_fmap).
      rewrite length_fmap, lookup_replicate_2 by lia. done.
Qed.

(** The caller's function throws: nothing is dispatched. *)
Lemma transaction_builder_throws passStatements e (w : World U) :
  passStatements sqlTag = Throw e →
  transaction sqlTag passStatements w = (Throw e, w).
Proof. intros Hpass. unfold transaction. by rewrite Hpass. Qed.

End Shaped.

(** ** The further properties on concrete clients *)

Lemma destroyed_world_reachable : reachable destroyed_world.
Proof.
  apply (reachable_finish call_destroy (Fulfilled acknowledgement)).
  apply reachable_message; [|by vm_compute].
  apply (reachable_start call_destroy).
  apply reachable_constructor, sample_keys_truthy.
Qed.

Lemma colliding_world_reachable : reachable colliding_world.
Proof. apply reachable_start, reachable_constructor. done. Qed.

Lemma duplicate_reply_is_stray_witness :
  processMessageEvent late_error (processMessageEvent late_error two_in_flight).2
  = (Throw (JsError "constraint failed"),
     (processMessageEvent late_error two_in_flight).2).
Proof. by apply (duplicate_reply_is_stray late_error two_in_flight). Defined.

Lemma registry_entries_own_pending_promises_witness :
  promises two_in_flight !! 1 = Some None.
Proof.
  destruct (registry_entries_own_pending_promises two_in_flight
              "Uakgb_J5m9g-0JDMbcJqL" (resolve_of 1) (reject_of 1))
    as (_ & p & [= <-] & _ & Hpending & _);
    [apply two_in_flight_reachable | by vm_compute | exact Hpending].
Defined.

Lemma registry_entry_matches_posted_request_witness :
  ∃ b, posted (worker (client two_in_flight)) !! 2
       = Some ({| body := b; queryKey := Some "Uakgb_J5m9g-0JDMbcJqL" |},
               transfer_of b).
Proof.
  destruct (registry_entry_matches_posted_request two_in_flight
              "Uakgb_J5m9g-0JDMbcJqL" 1 (reject_of 1))
    as (_ & Hposted);
    [apply two_in_flight_reachable | by vm_compute | exact Hposted].
Defined.

Lemma config_is_posted_first_witness :
  posted (worker (client two_in_flight)) !! 0
  = Some ({| body := ConfigBody "databasePath" "database.sqlite3";
             queryKey := None |}, []).
Proof.
  by destruct (config_is_posted_first two_in_flight two_in_flight_reachable)
    as (Hfirst & _).
Defined.

Lemma orphaned_promise_never_settles_witness :
  promises (finish call_getDatabaseInfo (Rejected JsNull) abandoned_world) !! 0
  = Some None.
Proof.
  apply (orphaned_promise_never_settles abandoned_world).
  - apply rtc_once, step_finish.
  - split; [by vm_compute|].
    intros k resolve reject Hk. unfold abandoned_world in Hk. simpl in Hk.
    by rewrite lookup_empty in Hk.
Defined.

(** The second request takes the key of the first; the reply settles the
    second, and the first stays pending. *)
Lemma reused_key_orphans_pending_request_witness :
  queriesInProgress
    (client (start (call_exec "SELECT 2" [] all) colliding_world).2)
    !! "V1StGXR8_Z5jdHi6B-myT"
  = Some (resolve_of 1, reject_of 1)
  ∧ promises (processMessageEvent acknowledgement
                (start (call_exec "SELECT 2" [] all) colliding_world).2).2 !! 0
    = Some None.
Proof.
  apply (reused_key_orphans_pending_request
           (call_exec "SELECT 2" [] all) colliding_world _ 0 (reject_of 0)).
  - apply colliding_world_reachable.
  - by vm_compute.
  - by vm_compute.
  - apply rtc_once, step_message. by vm_compute.
Defined.

Lemma destroy_is_final_witness :
  userCallbacks (client (destroy_then (Fulfilled acknowledgement) listening_world).2) = ∅
  ∧ posted (worker (client
              (start call_getDatabaseInfo
                 (destroy_then (Fulfilled acknowledgement) listening_world).2).2))
    = posted (worker (client listening_world))
  ∧ promises (start call_getDatabaseInfo
                (destroy_then (Fulfilled acknowledgement) listening_world).2).2
    = promises listening_world.
Proof.
  destruct (destroy_is_final acknowledgement listening_world
              (start call_getDatabaseInfo
                 (destroy_then (Fulfilled acknowledgement) listening_world).2).2)
    as (Hcallbacks & Hposted & Hpromises & _); [apply rtc_once, step_start|].
  by split_and!.
Defined.

Lemma destroyed_flag_means_torn_down_witness :
  listening (worker (client destroyed_world)) = false
  ∧ terminated (worker (client destroyed_world)) = true
  ∧ queriesInProgress (client destroyed_world) = ∅.
Proof.
  apply (destroyed_flag_means_torn_down destroyed_world destroyed_world_reachable).
  by vm_compute.
Defined.

Lemma reply_settles_the_call_it_answers_witness :
  ∃ p, (start (call_exec "SELECT name FROM groceries" [] all) sample_world).1 = Normal p
     ∧ promises (processMessageEvent pasta_reply
                   (start (call_exec "SELECT name FROM groceries" [] all)
                      sample_world).2).2 !! p
       = Some (Some (Fulfilled pasta_reply)).
Proof.
  destruct (reply_settles_the_call_it_answers
              (call_exec "SELECT name FROM groceries" [] all) sample_world pasta_reply)
    as (_ & Hsettled & _);
    [apply reachable_constructor, sample_keys_truthy | done | done | done | done
    | exact Hsettled].
Defined.

Lemma getDatabaseInfo_round_trip_witness :
  ∃ p s,
    (getDatabaseInfo sample_world).1 = Normal p
    ∧ promises (processMessageEvent groceries_info (getDatabaseInfo sample_world).2).2
        !! p = Some (Some s)
    ∧ getDatabaseInfo_then s
      = Normal (JsArray [JsString "groceries.sqlite3"; JsNumber 4096]).
Proof.
  apply (getDatabaseInfo_round_trip sample_world groceries_info);
    [apply reachable_constructor, sample_keys_truthy | done | done | done].
Defined.

Lemma only_import_transfers_witness :
  [database_image]
  = match body {| body := ImportBody database_image;
                  queryKey := Some "V1StGXR8_Z5jdHi6B-myT" |} with
    | ImportBody database => [database]
    | _ => []
    end.
Proof.
  apply (only_import_transfers
           (start (call_overwriteDatabaseFile (BlobFile database_image)) sample_world).2).
  - apply reachable_start, reachable_constructor, sample_keys_truthy.
  - apply (list_elem_of_lookup_2 _ 1). by vm_compute.
Defined.

Lemma path_parts_at_separator_witness :
  path_parts ("backups" +:+ String "\" "groceries.sqlite3")
    = path_parts "backups" ++ path_parts "groceries.sqlite3"
  ∧ path_parts (String "\" "groceries.sqlite3") = path_parts "groceries.sqlite3"
  ∧ path_parts ("backups" +:+ String "\" EmptyString) = path_parts "backups"
  ∧ path_parts ("backups" +:+ String "\" (String "\" "groceries.sqlite3"))
    = path_parts "backups" ++ path_parts "groceries.sqlite3".
Proof. by apply (path_parts_at_separator "\" "backups" "groceries.sqlite3"). Defined.

Lemma path_parts_of_joined_names_witness :
  path_parts (String.concat "/" ["backups"; "2024"; "groceries.sqlite3"])
    = ["backups"; "2024"; "groceries.sqlite3"]
  ∧ (pop (path_parts (String.concat "/" ["backups"; "2024"; "groceries.sqlite3"]))).1
    = last ["backups"; "2024"; "groceries.sqlite3"].
Proof.
  apply (path_parts_of_joined_names ["backups"; "2024"; "groceries.sqlite3"]).
  by repeat constructor.
Defined.

Lemma getDatabaseFile_without_name_witness :
  getDatabaseFile (list string) (list string) string
    (Normal []) sample_getDirectoryHandle sample_getDirectoryHandle sample_getFile
    nameless_world
  = Throw fileNameError.
Proof. by apply getDatabaseFile_without_name. Defined.

Lemma getDatabaseFile_walks_the_path_witness :
  getDatabaseFile (list string) (list string) string
    (Normal []) sample_getDirectoryHandle sample_getDirectoryHandle sample_getFile
    nested_world
  = Normal {| file_bits := ["backups/2024/groceries.sqlite3"];
              file_name := "groceries.sqlite3";
              file_type := "application/x-sqlite3" |}.
Proof.
  rewrite (getDatabaseFile_walks_the_path (list string) (list string) string
             (Normal []) sample_getDirectoryHandle sample_getDirectoryHandle
             sample_getFile nested_world ["backups"; "2024"] "groceries.sqlite3");
    [done | by repeat constructor | done].
Defined.

Lemma getDatabaseFile_along_runs_witness :
  getDatabaseFile (list string) (list string) string
    (Normal []) sample_getDirectoryHandle sample_getDirectoryHandle sample_getFile
    (finish call_destroy (Fulfilled acknowledgement) nested_world)
  = getDatabaseFile (list string) (list string) string
      (Normal []) sample_getDirectoryHandle sample_getDirectoryHandle sample_getFile
      nested_world.
Proof. apply getDatabaseFile_along_runs, rtc_once, step_finish. Defined.

Lemma sql_round_trip_witness :
  ∃ p s,
    (sql sample_sqlTag (TemplateString "SELECT name FROM groceries") [] sample_world).1
      = Normal p
    ∧ promises (processMessageEvent pasta_reply
                  (sql sample_sqlTag (TemplateString "SELECT name FROM groceries") []
                     sample_world).2).2 !! p
      = Some (Some s)
    ∧ sql_then sample_convertRowsToObjects s = Normal [JsArray [JsString "pasta"]].
Proof.
  destruct (sql_round_trip sample_sqlTag sample_convertRowsToObjects
              (TemplateString "SELECT name FROM groceries") [] sample_world pasta_reply)
    as (_ & Hresult);
    [apply reachable_constructor, sample_keys_truthy | done | done | done
    | exact Hresult].
Defined.

Lemma transaction_round_trip_witness :
  ∃ p s out,
    (transaction sample_sqlTag (λ _, Normal [insert_pasta; select_names]) sample_world).1
      = Normal p
    ∧ promises (processMessageEvent pasta_reply
                  (transaction sample_sqlTag (λ _, Normal [insert_pasta; select_names])
                     sample_world).2).2 !! p
      = Some (Some s)
    ∧ transaction_then sample_convertRowsToObjects [insert_pasta; select_names] s
      = Normal out
    ∧ length out = 2
    ∧ ∀ i, i < 2 →
        out !! i
        = Some (Some (let result := default emptyResult ([pasta_row] !! i) in
                      sample_convertRowsToObjects (rows result) (columns result))).
Proof.
  destruct (transaction_round_trip sample_sqlTag sample_convertRowsToObjects
              (λ _, Normal [insert_pasta; select_names]) [insert_pasta; select_names]
              sample_world pasta_reply)
    as (_ & Hresult);
    [apply reachable_constructor, sample_keys_truthy | done | done | done | done
    | done | simpl; lia | exact Hresult].
Defined.

(** ** Replies leave everything but their own entry alone *)

Lemma handler_frame_witness :
  worker (client (processMessageEvent late_error two_in_flight).2)
    = worker (client two_in_flight)
  ∧ length (promises (processMessageEvent late_error two_in_flight).2) = 2
  ∧ app (processMessageEvent late_error two_in_flight).2 = [].
Proof.
  destruct (handler_frame late_error two_in_flight)
    as (Hworker & Hlength & _ & _ & _ & _ & _ & _ & Happ); [done|].
  by split_and!.
Defined.

(** ** [getDatabaseFile] on a client that was torn down *)

(** The flag is set, and the method that reads the file still returns it. *)
Lemma C2_counterexample :
  isWorkerDestroyed (client destroyed_world) = true
  ∧ getDatabaseFile (list string) (list string) string
      (Normal []) sample_getDirectoryHandle sample_getDirectoryHandle sample_getFile
      destroyed_world
    = Normal {| file_bits := ["database.sqlite3"];
                file_name := "database.sqlite3";
                file_type := "application/x-sqlite3" |}.
Proof. split; by vm_compute. Defined.
